(** * libntstm: full-transfer streams over file descriptors and memory buffers

    A shallow embedding of [io.cpp] with the declarations of [ntstm/io.hpp],
    [ntstm/fdio.hpp] and [ntstm/bufio.hpp], and the properties of the
    full-transfer contract, of the errno classification and of the growth
    arithmetic of the output buffer.

    Conventions of the embedding.
    - [size_t] is the 64-bit unsigned integer of an LP64/LLP64 target: a [Z]
      in [0, 2^64) with every addition and subtraction reduced [mod 2^64].
    - A C++ member function is a computation [M S A]: it takes the state it
      may mutate and yields an [outcome]: normal return, a thrown exception
      (with the state as it is when the exception leaves), a call to
      [std::terminate], undefined behaviour, or a call that is still waiting
      for the operating system.
    - Memory reached through a pointer is a [list byte]; a pointer into it is
      an offset. *)

From Stdlib Require Import ZArith List Bool Lia.
From Stdlib Require Import Strings.Byte.
Import ListNotations.

Local Open Scope Z_scope.

(** ** Machine integers *)

Definition SIZE_BITS : Z := 64.
Definition SIZE_MAX : Z := 2 ^ SIZE_BITS - 1.

(** Reduction of an arithmetic result to [size_t]. *)
Definition to_size_t (x : Z) : Z := x mod 2 ^ SIZE_BITS.

(** Number of value bits of [int]; [1 << n] is defined for [n] below it. *)
Definition INT_VALUE_BITS : Z := 31.

(** ** ntstm/io.hpp: the error model *)

Inductive NtIoErrorCode : Type :=
| eioInvalidHandle
| eioPermission
| eioStreamClosed
| eioNonBlocking
| eioInterrupted
| eioAllocation
| eioMalformed
| eioMax.

Record NtIoException : Type := { ioErrorCode : NtIoErrorCode }.

(** Everything that can be thrown inside the library: its own exception and
    the two standard exceptions [std::vector] raises. *)
Inductive exn : Type :=
| NtIo (e : NtIoException)
| std_length_error
| std_bad_alloc.

(** ** Computations *)

Inductive outcome (S A : Type) : Type :=
| Return (a : A) (s : S)
| Raise (x : exn) (s : S)
| Terminate
| Undefined
| Blocked.

Arguments Return {S A} a s.
Arguments Raise {S A} x s.
Arguments Terminate {S A}.
Arguments Undefined {S A}.
Arguments Blocked {S A}.

Definition M (S A : Type) : Type := S -> outcome S A.

Definition ret {S A} (a : A) : M S A := fun s => Return a s.

Definition bind {S A B} (m : M S A) (k : A -> M S B) : M S B :=
  fun s =>
    match m s with
    | Return a s' => k a s'
    | Raise x s' => Raise x s'
    | Terminate => Terminate
    | Undefined => Undefined
    | Blocked => Blocked
    end.

Definition throw {S A} (c : NtIoErrorCode) : M S A :=
  fun s => Raise (NtIo {| ioErrorCode := c |}) s.

Definition gets {S A} (f : S -> A) : M S A := fun s => Return (f s) s.

(** [try { m } catch (...) { h }]. *)
Definition try_catch {S A} (m : M S A) (h : exn -> M S A) : M S A :=
  fun s =>
    match m s with
    | Raise x s' => h x s'
    | o => o
    end.

(** The dynamic exception specification [throw (NtIoException)]: an exception
    of any other type leaving the function reaches [std::unexpected], whose
    default handler calls [std::terminate]. *)
Definition throw_spec_NtIoException {S A} (m : M S A) : M S A :=
  fun s =>
    match m s with
    | Raise (NtIo e) s' => Raise (NtIo e) s'
    | Raise _ _ => Terminate
    | o => o
    end.

(** Run a computation on a part of the state. *)
Definition zoom {S T A} (get : S -> T) (set : T -> S -> S) (m : M T A) : M S A :=
  fun s =>
    match m (get s) with
    | Return a t => Return a (set t s)
    | Raise x t => Raise x (set t s)
    | Terminate => Terminate
    | Undefined => Undefined
    | Blocked => Blocked
    end.

Declare Scope cpp_scope.
Delimit Scope cpp_scope with cpp.
Notation "x <- m ;; k" := (bind m (fun x => k))
  (at level 61, m at next level, right associativity) : cpp_scope.
Notation "m ;; k" := (bind m (fun _ => k))
  (at level 61, right associativity) : cpp_scope.
Local Open Scope cpp_scope.

(** ** The errno values of <cerrno>

    The header belongs to the platform; the library only names the constants.
    They are a parameter of the embedding. The [switch] of
    [NtIoFileStreamErrnoCheck] uses all nine as case labels, so the function
    is a C++ program only on a platform where the nine are pairwise
    different. *)

Record errno_values : Type := {
  EPERM : Z;
  EIO : Z;
  EPIPE : Z;
  EAGAIN : Z;
  EWOULDBLOCK : Z;
  EINTR : Z;
  EBADF : Z;
  EINVAL : Z;
  EISDIR : Z
}.

Definition case_labels (E : errno_values) : list Z :=
  [EPERM E; EIO E; EPIPE E; EAGAIN E; EWOULDBLOCK E; EINTR E;
   EBADF E; EINVAL E; EISDIR E].

Fixpoint distinct (l : list Z) : bool :=
  match l with
  | [] => true
  | x :: r => negb (existsb (Z.eqb x) r) && distinct r
  end.

Definition switch_compiles (E : errno_values) : Prop :=
  distinct (case_labels E) = true.

(** The values of the Microsoft C runtime, the one target of the source on
    which [EAGAIN] and [EWOULDBLOCK] differ. *)
Definition msvcrt_errno : errno_values := {|
  EPERM := 1; EIO := 5; EPIPE := 32; EAGAIN := 11; EWOULDBLOCK := 140;
  EINTR := 4; EBADF := 9; EINVAL := 22; EISDIR := 21
|}.

Section ErrnoCheck.

Variable E : errno_values.

(** [static void NtIoFileStreamErrnoCheck() throw (NtIoException)], the
    global [errno] passed as an argument. The cases are tried in the order
    of the labels. *)
Definition NtIoFileStreamErrnoCheck {S} (errno : Z) : M S unit :=
  throw_spec_NtIoException
    (if errno =? EPERM E then throw eioPermission
     else if (errno =? EIO E) || (errno =? EPIPE E) then throw eioStreamClosed
     else if (errno =? EAGAIN E) || (errno =? EWOULDBLOCK E)
          then throw eioNonBlocking
     else if errno =? EINTR E then throw eioInterrupted
     else if (errno =? EBADF E) || (errno =? EINVAL E) || (errno =? EISDIR E)
          then throw eioInvalidHandle
     else (* default *) throw eioInvalidHandle).

End ErrnoCheck.

(** ** Raw memory *)

(** A pointer: the memory block it points into and the offset in it. *)
Record pointer : Type := { block : list byte; offset : Z }.

(** The bytes readable from a pointer on. *)
Definition readable (p : pointer) : list byte :=
  if 0 <=? offset p then skipn (Z.to_nat (offset p)) (block p) else [].

Definition advance (p : pointer) (n : Z) : pointer :=
  {| block := block p; offset := offset p + n |}.

Definition len (l : list byte) : Z := Z.of_nat (length l).

(** [memcpy(&dst[off], src, n)]: the new content of [dst], or [None] when the
    copy leaves [dst] or [src]. *)
Definition memcpy (dst : list byte) (off : Z) (src : list byte) (n : Z)
  : option (list byte) :=
  if (0 <=? off) && (0 <=? n) && (off + n <=? len dst) && (n <=? len src) then
    Some (firstn (Z.to_nat off) dst ++ firstn (Z.to_nat n) src
            ++ skipn (Z.to_nat (off + n)) dst)
  else None.

(** ** std::vector<int8_t>

    The part of the container the library uses: [size], [capacity],
    [reserve], [resize], [data] and [operator[]]. [reserve] allocates exactly
    the requested capacity and [resize] beyond the capacity grows as
    libstdc++ does; both raise [std::length_error] above [max_size] and
    [std::bad_alloc] when the allocator refuses, and leave the vector as it
    was in that case (the element type is trivially copyable). *)

(** [max_size()] of a vector of one-byte elements on a 64-bit target:
    [PTRDIFF_MAX]. *)
Definition max_size : Z := 2 ^ 63 - 1.

Record vector : Type := { elems : list byte; capacity : Z }.

Definition vector_empty : vector := {| elems := []; capacity := 0 |}.

Definition vector_size (v : vector) : Z := len (elems v).

Section Allocator.

(** Whether the allocator grants a block of the given number of bytes. *)
Variable heap : Z -> bool.

Definition vector_reserve (n : Z) : M vector unit :=
  fun v =>
    if max_size <? n then Raise std_length_error v
    else if capacity v <? n then
      if heap n then Return tt {| elems := elems v; capacity := n |}
      else Raise std_bad_alloc v
    else Return tt v.

Definition vector_resize (n : Z) : M vector unit :=
  fun v =>
    let sz := vector_size v in
    if n <=? sz then
      Return tt {| elems := firstn (Z.to_nat n) (elems v);
                   capacity := capacity v |}
    else if n <=? capacity v then
      Return tt {| elems := elems v ++ repeat x00 (Z.to_nat (n - sz));
                   capacity := capacity v |}
    else if max_size <? n then Raise std_length_error v
    else
      let grown := sz + Z.max sz (n - sz) in
      let cap := if max_size <? grown then max_size else grown in
      if heap cap then
        Return tt {| elems := elems v ++ repeat x00 (Z.to_nat (n - sz));
                     capacity := cap |}
      else Raise std_bad_alloc v.

End Allocator.

(** [memcpy(&v[off], src, n)]. *)
Definition vector_memcpy (off : Z) (src : list byte) (n : Z) : M vector unit :=
  fun v =>
    match memcpy (elems v) off src n with
    | Some e => Return tt {| elems := e; capacity := capacity v |}
    | None => Undefined
    end.

(** ** ntstm/fdio.hpp: NtIoFileStream *)

Module NtIoFileStream.

Record t : Type := { fd : Z }.

(** What one call of [::read] or [::write] on the descriptor gives back:
    the [ssize_t] it returns and the value it leaves in [errno]. *)
Record attempt : Type := { returned : Z; errno_after : Z }.

(** The descriptor as the stream sees it: the results of the calls to come,
    in order. When none is left the call is still waiting. *)
Definition world : Type := list attempt.

Section Errno.

Variable E : errno_values.

(** The loop of [NtIoFileStream::read], entered with the local
    [readSize]. *)
Fixpoint read_loop (size readSize : Z) (w : world) {struct w}
  : outcome world unit :=
  if readSize <? size then
    match w with
    | [] => Blocked
    | r :: w' =>
        let newSize := returned r in
        if 0 <? newSize then read_loop size (to_size_t (readSize + newSize)) w'
        else if newSize =? 0 then throw eioStreamClosed w'
        else
          match NtIoFileStreamErrnoCheck E (errno_after r) tt with
          | Return _ _ => read_loop size readSize w'
          | Raise x _ => Raise x w'
          | Terminate => Terminate
          | Undefined => Undefined
          | Blocked => Blocked
          end
    end
  else Return tt w.

Definition read (this : t) (size : Z) : M world unit :=
  throw_spec_NtIoException (read_loop size 0).

(** The loop of [NtIoFileStream::write], entered with the local
    [writeSize]. *)
Fixpoint write_loop (size writeSize : Z) (w : world) {struct w}
  : outcome world unit :=
  if writeSize <? size then
    match w with
    | [] => Blocked
    | r :: w' =>
        let newSize := returned r in
        if 0 <? newSize then
          write_loop size (to_size_t (writeSize + newSize)) w'
        else
          match NtIoFileStreamErrnoCheck E (errno_after r) tt with
          | Return _ _ => write_loop size writeSize w'
          | Raise x _ => Raise x w'
          | Terminate => Terminate
          | Undefined => Undefined
          | Blocked => Blocked
          end
    end
  else Return tt w.

Definition write (this : t) (size : Z) : M world unit :=
  throw_spec_NtIoException (write_loop size 0).

End Errno.

(** The bytes the calls answered so far have moved. *)
Definition transferred (used : list attempt) : Z :=
  fold_right (fun r acc => returned r + acc) 0 used.

(** [::read(fd, buf, count)] returns at most [count]: every attempt of the
    list, met with [readSize] bytes done out of [size], stays within the
    count it was asked for. *)
Fixpoint within_count (size readSize : Z) (w : world) : bool :=
  match w with
  | [] => true
  | r :: w' =>
      (returned r <=? size - readSize)
      && within_count size (readSize + returned r) w'
  end.

End NtIoFileStream.

(** ** ntstm/bufio.hpp: NtIoInputBuffer *)

Module NtIoInputBuffer.

Record t : Type := { size : Z; buffer : pointer }.

(** [NtIoInputBuffer(const void* buffer, size_t size)]. *)
Definition new (buffer : pointer) (size : Z) : t :=
  {| size := size; buffer := buffer |}.

(** [read(void* requestBuffer, size_t requestSize)]; the state is the object
    and the caller's destination buffer. *)
Definition read (requestSize : Z) : M (t * list byte) unit :=
  throw_spec_NtIoException
    (fun '(this, requestBuffer) =>
       if size this <? requestSize then
         throw eioStreamClosed (this, requestBuffer)
       else
         match memcpy requestBuffer 0 (readable (buffer this)) requestSize with
         | None => Undefined
         | Some filled =>
             Return tt
               ({| size := to_size_t (size this - requestSize);
                   buffer := advance (buffer this) requestSize |},
                filled)
         end).

(** The region is [size] readable bytes from [buffer] on. *)
Definition valid (this : t) : Prop :=
  0 <= offset (buffer this)
  /\ 0 <= size this <= SIZE_MAX
  /\ offset (buffer this) + size this <= len (block (buffer this)).

End NtIoInputBuffer.

(** ** ntstm/bufio.hpp: NtIoOutputBuffer *)

Module NtIoOutputBuffer.

Record t : Type := { buffer : vector; memoryStepping : Z }.

Definition default_memoryStepping : Z := 5.

(** [NtIoOutputBuffer(size_t memoryStepping = 5)]. *)
Definition new (memoryStepping : Z) : t :=
  {| buffer := vector_empty; memoryStepping := memoryStepping |}.

Definition size (this : t) : Z := vector_size (buffer this).

(** [data()]: the address of the first element. *)
Definition data (this : t) : pointer :=
  {| block := elems (buffer this); offset := 0 |}.

Definition on_buffer {A} (m : M vector A) : M t A :=
  zoom buffer
    (fun v this => {| buffer := v; memoryStepping := memoryStepping this |})
    m.

(** [1 << (memoryStepping + 1)], an [int] shift converted to [size_t]. From
    31 bits on the shift has no value that is a power of two (it is
    undefined, or [INT_MIN] at 31); the embedding stops there. *)
Definition stepSize : M t Z :=
  fun this =>
    let n := to_size_t (memoryStepping this + 1) in
    if n <? INT_VALUE_BITS then Return (to_size_t (Z.shiftl 1 n)) this
    else Undefined.

(** The rounding of [write]. *)
Definition round_up (newSize maskStepSize : Z) : Z :=
  Z.lxor (Z.lor (to_size_t (newSize + maskStepSize)) maskStepSize)
         maskStepSize.

Section Allocator.

Variable heap : Z -> bool.

Definition write (requestBuffer : list byte) (requestSize : Z) : M t unit :=
  throw_spec_NtIoException
    (if requestSize =? 0 then ret tt
     else
       oldSize <- gets size ;;
       let newSize := to_size_t (oldSize + requestSize) in
       step <- stepSize ;;
       let maskStepSize := to_size_t (step - 1) in
       let newContainerSize := round_up newSize maskStepSize in
       cap <- gets (fun this => capacity (buffer this)) ;;
       (if cap <? newContainerSize then
          try_catch (on_buffer (vector_reserve heap newContainerSize))
            (fun x =>
               match x with
               | std_length_error => throw eioAllocation
               | std_bad_alloc => throw eioAllocation
               | NtIo e => fun s => Raise (NtIo e) s
               end)
        else ret tt) ;;
       on_buffer (vector_resize heap newSize) ;;
       on_buffer (vector_memcpy oldSize requestBuffer requestSize)).

(** Successive [write] calls, one per chunk, each with the chunk's own
    length; stops at the first call that does not return. *)
Fixpoint write_all (chunks : list (list byte)) : M t unit :=
  match chunks with
  | [] => ret tt
  | c :: rest => write c (len c) ;; write_all rest
  end.

End Allocator.

(** The states a buffer constructed with [stepping] goes through: after
    construction, after a [write] that returns and after a [write] that
    raises; the allocator may answer differently at every call. *)
Inductive reachable (stepping : Z) : t -> Prop :=
| reach_new : reachable stepping (new stepping)
| reach_return : forall heap this requestBuffer requestSize this',
    reachable stepping this ->
    0 <= requestSize <= SIZE_MAX ->
    write heap requestBuffer requestSize this = Return tt this' ->
    reachable stepping this'
| reach_raise : forall heap this requestBuffer requestSize x this',
    reachable stepping this ->
    0 <= requestSize <= SIZE_MAX ->
    write heap requestBuffer requestSize this = Raise x this' ->
    reachable stepping this'.

End NtIoOutputBuffer.

(** ** Arithmetic notions of the claims *)

(** [t] is the least multiple of [step] that is at least [n]. *)
Definition least_multiple_at_least (step n t : Z) : Prop :=
  (step | t) /\ n <= t /\ forall m, (step | m) -> n <= m -> t <= m.

(** [c] is [step] times a power of two. *)
Definition power_of_two_multiple (step c : Z) : Prop :=
  exists k : nat, c = 2 ^ Z.of_nat k * step.

(** ** Notions used by the statements *)

(** The representation invariant of [std::vector]. *)
Definition vector_valid (v : vector) : Prop :=
  len (elems v) <= capacity v <= max_size.

(** The object with its vector replaced. *)
Definition with_buffer (this : NtIoOutputBuffer.t) (v : vector)
  : NtIoOutputBuffer.t :=
  {| NtIoOutputBuffer.buffer := v;
     NtIoOutputBuffer.memoryStepping := NtIoOutputBuffer.memoryStepping this |}.

(** What the handlers of [write] make of an exception of [reserve]. *)
Definition as_allocation_failure (x : exn) : exn :=
  match x with
  | NtIo e => NtIo e
  | _ => NtIo {| ioErrorCode := eioAllocation |}
  end.

(** An exception that reaches the exception specification of a member. *)
Definition leaving {S A} (x : exn) (s : S) : outcome S A :=
  match x with
  | NtIo e => Raise (NtIo e) s
  | _ => Terminate
  end.

(** What every state of a buffer constructed with [stepping] satisfies. *)
Definition buffer_invariant (stepping : Z) (this : NtIoOutputBuffer.t) : Prop :=
  NtIoOutputBuffer.memoryStepping this = stepping
  /\ vector_valid (NtIoOutputBuffer.buffer this)
  /\ (2 ^ (stepping + 1) | capacity (NtIoOutputBuffer.buffer this)).

(** ** ntstm/io.hpp: the typed forms of read and write

    An object of a type [T] is its storage, the [sizeof(T)] bytes of its
    object representation. *)

Module NtIoInputStream.

(** [template<typename T> void read(T& t) { read(&t, sizeof(T)); }], with
    [read_bytes] the virtual [read(void*, size_t)] of the stream; the state
    is the stream and the storage of [t]. *)
Definition read {S} (read_bytes : Z -> M (S * list byte) unit)
  : M (S * list byte) unit :=
  fun st => read_bytes (len (snd st)) st.

End NtIoInputStream.

Module NtIoOutputStream.

(** [template<typename T> void write(const T& t) { write(&t, sizeof(T)); }],
    with [write_bytes] the virtual [write(const void*, size_t)]. *)
Definition write {S} (write_bytes : list byte -> Z -> M S unit) (t : list byte)
  : M S unit :=
  write_bytes t (len t).

End NtIoOutputStream.

(** Objects written one after the other to an output buffer through the
    typed form; stops at the first call that does not return. *)
Fixpoint write_values (heap : Z -> bool) (objs : list (list byte))
  : M NtIoOutputBuffer.t unit :=
  match objs with
  | [] => ret tt
  | t :: rest =>
      NtIoOutputStream.write (NtIoOutputBuffer.write heap) t ;;
      write_values heap rest
  end.

(** Objects read one after the other from an input buffer through the typed
    form, each into its own storage; yields the storages as the reads left
    them and stops at the first call that does not return. *)
Fixpoint read_values (objs : list (list byte))
  : M NtIoInputBuffer.t (list (list byte)) :=
  match objs with
  | [] => ret []
  | t :: rest =>
      fun this =>
        match NtIoInputStream.read NtIoInputBuffer.read (this, t) with
        | Return _ (this', t') =>
            match read_values rest this' with
            | Return ts this'' => Return (t' :: ts) this''
            | Raise x this'' => Raise x this''
            | Terminate => Terminate
            | Undefined => Undefined
            | Blocked => Blocked
            end
        | Raise x (this', _) => Raise x this'
        | Terminate => Terminate
        | Undefined => Undefined
        | Blocked => Blocked
        end
  end.

(** The bytes of [src] cut into consecutive pieces as long as the objects of
    [objs]. *)
Fixpoint pieces (src : list byte) (objs : list (list byte))
  : list (list byte) :=
  match objs with
  | [] => []
  | t :: rest =>
      firstn (Z.to_nat (len t)) src
        :: pieces (skipn (Z.to_nat (len t)) src) rest
  end.

(** The bytes the objects of [objs] take together. *)
Definition total_len (objs : list (list byte)) : Z := len (concat objs).

(** The error kinds the errno classification can give. *)
Definition file_stream_kinds : list NtIoErrorCode :=
  [eioInvalidHandle; eioPermission; eioStreamClosed; eioNonBlocking;
   eioInterrupted].

(** [w] is [used] followed by [w']: the calls of [used] were consumed, in
    order. *)
Definition consumed (w used w' : NtIoFileStream.world) : Prop :=
  w = used ++ w'.

(** The number of attempts of a list, as an integer. *)
Definition attempts (w : NtIoFileStream.world) : Z := Z.of_nat (length w).

(** ** Proof automation *)

(** Case analysis on every integer comparison of the goal. *)
Ltac eqb_cases :=
  repeat match goal with
         | |- context [?a =? ?b] =>
             let Heq := fresh "Heq" in
             destruct (Z.eqb_spec a b) as [Heq | Heq]; simpl
         end.

(** ** Properties of the errno classification *)

Lemma distinct_cons (x : Z) (r : list Z) :
  distinct (x :: r) = true -> ~ In x r /\ distinct r = true.
Proof.
  simpl. intros H. apply andb_prop in H as [Hx Hr]. split; [|exact Hr].
  intros Hin. apply negb_true_iff in Hx.
  assert (existsb (Z.eqb x) r = true) as Hex.
  { apply existsb_exists. exists x. split; [exact Hin | apply Z.eqb_refl]. }
  congruence.
Qed.

(** C2. Under the labels of a compiling [switch], the classification is the
    fixed table: EPERM gives Permission, EIO and EPIPE give StreamClosed,
    EAGAIN and EWOULDBLOCK give NonBlocking, EINTR gives Interrupted, every
    other value (EBADF, EINVAL and EISDIR among them) gives InvalidHandle;
    the function raises for every errno value and never returns, so EINTR
    surfaces as an error. *)
Theorem NtIoFileStreamErrnoCheck_table :
  forall (E : errno_values) (S : Type) (errno : Z) (s : S),
    switch_compiles E ->
    let kind : NtIoErrorCode :=
      if errno =? EPERM E then eioPermission
      else if errno =? EIO E then eioStreamClosed
      else if errno =? EPIPE E then eioStreamClosed
      else if errno =? EAGAIN E then eioNonBlocking
      else if errno =? EWOULDBLOCK E then eioNonBlocking
      else if errno =? EINTR E then eioInterrupted
      else eioInvalidHandle in
    NtIoFileStreamErrnoCheck E errno s = Raise (NtIo {| ioErrorCode := kind |}) s
    /\ (forall a s', NtIoFileStreamErrnoCheck E errno s <> Return a s')
    /\ NtIoFileStreamErrnoCheck E (EPERM E) s = throw eioPermission s
    /\ NtIoFileStreamErrnoCheck E (EIO E) s = throw eioStreamClosed s
    /\ NtIoFileStreamErrnoCheck E (EPIPE E) s = throw eioStreamClosed s
    /\ NtIoFileStreamErrnoCheck E (EAGAIN E) s = throw eioNonBlocking s
    /\ NtIoFileStreamErrnoCheck E (EWOULDBLOCK E) s = throw eioNonBlocking s
    /\ NtIoFileStreamErrnoCheck E (EINTR E) s = throw eioInterrupted s
    /\ NtIoFileStreamErrnoCheck E (EBADF E) s = throw eioInvalidHandle s
    /\ NtIoFileStreamErrnoCheck E (EINVAL E) s = throw eioInvalidHandle s
    /\ NtIoFileStreamErrnoCheck E (EISDIR E) s = throw eioInvalidHandle s.
Proof.
  intros E S errno s Hsw kind. subst kind.
  unfold switch_compiles, case_labels in Hsw.
  repeat match type of Hsw with
         | distinct (_ :: _) = true =>
             let Hn := fresh "Hnotin" in
             apply distinct_cons in Hsw as [Hn Hsw]; simpl in Hn
         end.
  assert (forall e, exists k,
             @NtIoFileStreamErrnoCheck E S e s = throw k s) as Hraise.
  { intros e. unfold NtIoFileStreamErrnoCheck, throw_spec_NtIoException, throw.
    eqb_cases; eexists; reflexivity. }
  repeat split.
  - unfold NtIoFileStreamErrnoCheck, throw_spec_NtIoException, throw.
    eqb_cases; reflexivity.
  - intros a s' Hret. destruct (Hraise errno) as [k Hk].
    rewrite Hk in Hret. discriminate Hret.
  - unfold NtIoFileStreamErrnoCheck, throw_spec_NtIoException, throw.
    eqb_cases; try reflexivity; tauto.
  - unfold NtIoFileStreamErrnoCheck, throw_spec_NtIoException, throw.
    eqb_cases; try reflexivity; exfalso; intuition congruence.
  - unfold NtIoFileStreamErrnoCheck, throw_spec_NtIoException, throw.
    eqb_cases; try reflexivity; exfalso; intuition congruence.
  - unfold NtIoFileStreamErrnoCheck, throw_spec_NtIoException, throw.
    eqb_cases; try reflexivity; exfalso; intuition congruence.
  - unfold NtIoFileStreamErrnoCheck, throw_spec_NtIoException, throw.
    eqb_cases; try reflexivity; exfalso; intuition congruence.
  - unfold NtIoFileStreamErrnoCheck, throw_spec_NtIoException, throw.
    eqb_cases; try reflexivity; exfalso; intuition congruence.
  - unfold NtIoFileStreamErrnoCheck, throw_spec_NtIoException, throw.
    eqb_cases; try reflexivity; exfalso; intuition congruence.
  - unfold NtIoFileStreamErrnoCheck, throw_spec_NtIoException, throw.
    eqb_cases; try reflexivity; exfalso; intuition congruence.
  - unfold NtIoFileStreamErrnoCheck, throw_spec_NtIoException, throw.
    eqb_cases; try reflexivity; exfalso; intuition congruence.
Qed.

(** C2 at the values of the Microsoft C runtime, errno 4 (EINTR). *)
Lemma NtIoFileStreamErrnoCheck_table_witness :
  switch_compiles msvcrt_errno
  /\ NtIoFileStreamErrnoCheck msvcrt_errno 4 tt = throw eioInterrupted tt.
Proof.
  split; [reflexivity|].
  exact (proj1 (NtIoFileStreamErrnoCheck_table msvcrt_errno unit 4 tt eq_refl)).
Defined.

(** ** The rounding of the output buffer *)

Lemma size_modulus : 2 ^ SIZE_BITS = 18446744073709551616.
Proof. reflexivity. Qed.

Lemma to_size_t_small (x : Z) : 0 <= x <= SIZE_MAX -> to_size_t x = x.
Proof.
  unfold to_size_t, SIZE_MAX. intros H. apply Z.mod_small. lia.
Qed.

Lemma to_size_t_range (x : Z) : 0 <= to_size_t x <= SIZE_MAX.
Proof.
  unfold to_size_t, SIZE_MAX.
  pose proof (Z.mod_pos_bound x (2 ^ SIZE_BITS)) as H.
  rewrite size_modulus in *. lia.
Qed.

(** [(x | m) ^ m] with [m = 2^k - 1] clears the [k] low bits of [x]. *)
Lemma or_xor_mask (x k : Z) :
  0 <= k ->
  Z.lxor (Z.lor x (2 ^ k - 1)) (2 ^ k - 1) = x - x mod 2 ^ k.
Proof.
  intros Hk.
  replace (2 ^ k - 1) with (Z.ones k) by (rewrite Z.ones_equiv; lia).
  assert (Z.lxor (Z.lor x (Z.ones k)) (Z.ones k) = Z.ldiff x (Z.ones k)) as ->.
  { apply Z.bits_inj'. intros i Hi.
    rewrite Z.lxor_spec, Z.lor_spec, Z.ldiff_spec.
    destruct (Z.testbit x i), (Z.testbit (Z.ones k) i); reflexivity. }
  rewrite Z.ldiff_ones_r by exact Hk.
  rewrite Z.shiftl_mul_pow2, Z.shiftr_div_pow2 by exact Hk.
  assert (0 < 2 ^ k) as Hpos by (apply Z.pow_pos_nonneg; lia).
  pose proof (Z.div_mod x (2 ^ k)) as Hdm. lia.
Qed.

Lemma round_down_least (step y n : Z) :
  0 < step -> y = n + (step - 1) ->
  least_multiple_at_least step n (y - y mod step).
Proof.
  intros Hstep Hy.
  pose proof (Z.mod_pos_bound y step Hstep) as Hmod.
  pose proof (Z.div_mod y step ltac:(lia)) as Hdm.
  repeat split.
  - exists (y / step). lia.
  - lia.
  - intros m [q Hq] Hnm. subst m.
    assert (y / step <= q) as Hle.
    { apply Z.lt_succ_r. apply Z.div_lt_upper_bound; [exact Hstep|]. nia. }
    nia.
Qed.

Lemma round_up_no_wrap (k newSize : Z) :
  0 <= k -> 0 <= newSize -> newSize + (2 ^ k - 1) <= SIZE_MAX ->
  NtIoOutputBuffer.round_up newSize (2 ^ k - 1)
  = (newSize + (2 ^ k - 1)) - (newSize + (2 ^ k - 1)) mod 2 ^ k.
Proof.
  intros Hk Hn Hbound. unfold NtIoOutputBuffer.round_up.
  assert (0 < 2 ^ k) as Hpos by (apply Z.pow_pos_nonneg; lia).
  rewrite to_size_t_small by lia.
  apply or_xor_mask. exact Hk.
Qed.

Lemma round_up_is_least_multiple (k newSize : Z) :
  0 <= k -> 0 <= newSize -> newSize <= SIZE_MAX - (2 ^ k - 1) ->
  least_multiple_at_least (2 ^ k) newSize
    (NtIoOutputBuffer.round_up newSize (2 ^ k - 1)).
Proof.
  intros Hk Hn Hbound.
  assert (0 < 2 ^ k) as Hpos by (apply Z.pow_pos_nonneg; lia).
  rewrite round_up_no_wrap by lia.
  apply round_down_least; [exact Hpos | reflexivity].
Qed.

Lemma round_up_wrapped_is_smaller (k newSize : Z) :
  0 <= k < SIZE_BITS -> newSize <= SIZE_MAX ->
  SIZE_MAX - (2 ^ k - 1) < newSize ->
  NtIoOutputBuffer.round_up newSize (2 ^ k - 1) < newSize.
Proof.
  intros Hk Hn Hwrap.
  assert (0 < 2 ^ k) as Hpos by (apply Z.pow_pos_nonneg; lia).
  unfold NtIoOutputBuffer.round_up.
  rewrite or_xor_mask by lia.
  assert (2 ^ k < 2 ^ SIZE_BITS) as Hlt by (apply Z.pow_lt_mono_r; lia).
  assert (to_size_t (newSize + (2 ^ k - 1))
          = newSize + (2 ^ k - 1) - 2 ^ SIZE_BITS) as Hw.
  { unfold to_size_t. symmetry.
    apply Z.mod_unique with (q := 1); unfold SIZE_MAX in *; [|lia].
    left. lia. }
  rewrite Hw.
  pose proof (Z.mod_pos_bound (newSize + (2 ^ k - 1) - 2 ^ SIZE_BITS)
                (2 ^ k) Hpos) as Hmod.
  unfold SIZE_MAX in *.
  assert (0 <= newSize + (2 ^ k - 1) - 2 ^ SIZE_BITS < 2 ^ k) as Hsmall by lia.
  rewrite (Z.mod_small _ _ Hsmall). lia.
Qed.

(** C10. For a step 2^k and a [size_t] value newSize: when newSize is at most
    SIZE_MAX - (step - 1) the rounding expression of [write] is the least
    multiple of the step that is at least newSize; above that bound the sum
    wraps around and the expression is smaller than newSize. *)
Theorem round_up_least_multiple_iff_no_wrap :
  forall k newSize : Z,
    0 <= k < SIZE_BITS ->
    0 <= newSize <= SIZE_MAX ->
    let stepSize := 2 ^ k in
    let maskStepSize := stepSize - 1 in
    (newSize <= SIZE_MAX - (stepSize - 1) ->
     least_multiple_at_least stepSize newSize
       (NtIoOutputBuffer.round_up newSize maskStepSize))
    /\ (SIZE_MAX - (stepSize - 1) < newSize ->
        NtIoOutputBuffer.round_up newSize maskStepSize < newSize).
Proof.
  intros k newSize Hk Hn stepSize maskStepSize. subst stepSize maskStepSize.
  split.
  - intros Hbound. apply round_up_is_least_multiple; lia.
  - intros Hwrap. apply round_up_wrapped_is_smaller; lia.
Qed.

(** C10 at the default step 64: 70 rounds to 128, and SIZE_MAX rounds to 0. *)
Lemma round_up_least_multiple_iff_no_wrap_witness :
  least_multiple_at_least 64 70 (NtIoOutputBuffer.round_up 70 63)
  /\ NtIoOutputBuffer.round_up SIZE_MAX 63 < SIZE_MAX.
Proof.
  split.
  - apply (proj1 (round_up_least_multiple_iff_no_wrap 6 70
                    ltac:(unfold SIZE_BITS; lia)
                    ltac:(unfold SIZE_MAX, SIZE_BITS; lia))).
    vm_compute. discriminate.
  - apply (proj2 (round_up_least_multiple_iff_no_wrap 6 SIZE_MAX
                    ltac:(unfold SIZE_BITS; lia)
                    ltac:(unfold SIZE_MAX, SIZE_BITS; lia))).
    vm_compute. reflexivity.
Defined.

(** ** Lists of bytes and [memcpy] *)

Lemma len_nonneg (l : list byte) : 0 <= len l.
Proof. unfold len. lia. Qed.

Lemma len_app (a b : list byte) : len (a ++ b) = len a + len b.
Proof. unfold len. rewrite length_app. lia. Qed.

Lemma len_firstn (n : Z) (l : list byte) :
  0 <= n -> len (firstn (Z.to_nat n) l) = Z.min n (len l).
Proof. intros Hn. unfold len. rewrite length_firstn. lia. Qed.

Lemma len_repeat (x : byte) (n : Z) : 0 <= n -> len (repeat x (Z.to_nat n)) = n.
Proof. intros Hn. unfold len. rewrite repeat_length. lia. Qed.

Lemma firstn_len_app (a b : list byte) : firstn (Z.to_nat (len a)) (a ++ b) = a.
Proof.
  unfold len. rewrite Nat2Z.id, firstn_app, Nat.sub_diag, firstn_all.
  simpl. apply app_nil_r.
Qed.

Lemma skipn_len_app (a b : list byte) : skipn (Z.to_nat (len a)) (a ++ b) = b.
Proof.
  unfold len. rewrite Nat2Z.id, skipn_app, Nat.sub_diag, skipn_all. reflexivity.
Qed.

Lemma memcpy_some (dst : list byte) (off : Z) (src : list byte) (n : Z)
      (filled : list byte) :
  memcpy dst off src n = Some filled ->
  0 <= off /\ 0 <= n /\ off + n <= len dst /\ n <= len src
  /\ filled = firstn (Z.to_nat off) dst ++ firstn (Z.to_nat n) src
                ++ skipn (Z.to_nat (off + n)) dst.
Proof.
  unfold memcpy.
  destruct (0 <=? off) eqn:H1; [|discriminate].
  destruct (0 <=? n) eqn:H2; [|discriminate].
  destruct (off + n <=? len dst) eqn:H3; [|discriminate].
  destruct (n <=? len src) eqn:H4; [|discriminate].
  simpl. intros [= <-]. repeat split; lia.
Qed.

Lemma memcpy_in_range (dst : list byte) (off : Z) (src : list byte) (n : Z) :
  0 <= off -> 0 <= n -> off + n <= len dst -> n <= len src ->
  memcpy dst off src n
  = Some (firstn (Z.to_nat off) dst ++ firstn (Z.to_nat n) src
            ++ skipn (Z.to_nat (off + n)) dst).
Proof.
  intros H1 H2 H3 H4. unfold memcpy.
  apply Z.leb_le in H1, H2, H3, H4. rewrite H1, H2, H3, H4. reflexivity.
Qed.

(** Copying [n] bytes over the [n] fresh elements at the tail. *)
Lemma memcpy_tail (e src : list byte) (x : byte) (n : Z) :
  0 <= n <= len src ->
  memcpy (e ++ repeat x (Z.to_nat n)) (len e) src n
  = Some (e ++ firstn (Z.to_nat n) src).
Proof.
  intros Hn. pose proof (len_nonneg e) as He.
  rewrite memcpy_in_range;
    [ | lia | lia | rewrite len_app, len_repeat; lia | lia ].
  rewrite firstn_len_app. f_equal. f_equal.
  rewrite skipn_all2; [apply app_nil_r|].
  rewrite length_app, repeat_length. unfold len. lia.
Qed.

(** ** std::vector operations *)

Lemma vector_reserve_return heap (n : Z) (v v' : vector) (a : unit) :
  vector_reserve heap n v = Return a v' ->
  elems v' = elems v /\ capacity v' = Z.max (capacity v) n /\ n <= max_size.
Proof.
  unfold vector_reserve.
  destruct (Z.ltb_spec max_size n); [discriminate|].
  destruct (Z.ltb_spec (capacity v) n).
  - destruct (heap n); [|discriminate]. intros [= _ <-]. simpl.
    repeat split; lia.
  - intros [= _ <-]. repeat split; lia.
Qed.

Lemma vector_reserve_raise heap (n : Z) (v v' : vector) (x : exn) :
  vector_reserve heap n v = Raise x v' ->
  v' = v /\ (x = std_length_error \/ x = std_bad_alloc).
Proof.
  unfold vector_reserve.
  destruct (max_size <? n); [intros [= <- <-]; auto|].
  destruct (capacity v <? n); [|discriminate].
  destruct (heap n); [discriminate|]. intros [= <- <-]; auto.
Qed.

Lemma vector_reserve_outcomes heap (n : Z) (v : vector) :
  (exists v', vector_reserve heap n v = Return tt v')
  \/ (exists x, vector_reserve heap n v = Raise x v).
Proof.
  unfold vector_reserve.
  destruct (max_size <? n); [right; eauto|].
  destruct (capacity v <? n); [|left; eauto].
  destruct (heap n); [left|right]; eauto.
Qed.

Lemma vector_resize_return heap (n : Z) (v v' : vector) (a : unit) :
  vector_valid v -> 0 <= n ->
  vector_resize heap n v = Return a v' ->
  len (elems v') = n /\ n <= max_size.
Proof.
  unfold vector_valid, vector_resize, vector_size. intros Hv Hn.
  pose proof (len_nonneg (elems v)) as He.
  destruct (Z.leb_spec n (len (elems v))).
  { intros [= _ <-]. simpl. rewrite len_firstn by lia. lia. }
  destruct (Z.leb_spec n (capacity v)).
  { intros [= _ <-]. simpl. rewrite len_app, len_repeat by lia. lia. }
  destruct (Z.ltb_spec max_size n); [discriminate|].
  destruct (heap _); [|discriminate].
  intros [= _ <-]. simpl. rewrite len_app, len_repeat by lia. lia.
Qed.

Lemma vector_resize_raise heap (n : Z) (v v' : vector) (x : exn) :
  vector_resize heap n v = Raise x v' ->
  x = std_length_error \/ x = std_bad_alloc.
Proof.
  unfold vector_resize.
  destruct (n <=? vector_size v); [discriminate|].
  destruct (n <=? capacity v); [discriminate|].
  destruct (max_size <? n); [intros [= <- _]; auto|].
  destruct (heap _); [discriminate|]. intros [= <- _]; auto.
Qed.

Lemma vector_resize_within_capacity heap (n : Z) (v : vector) :
  len (elems v) < n <= capacity v ->
  vector_resize heap n v
  = Return tt {| elems := elems v ++ repeat x00 (Z.to_nat (n - len (elems v)));
                 capacity := capacity v |}.
Proof.
  intros H. unfold vector_resize, vector_size.
  destruct (Z.leb_spec n (len (elems v))); [lia|].
  destruct (Z.leb_spec n (capacity v)); [reflexivity|lia].
Qed.

(** ** NtIoOutputBuffer::write, step by step *)

Lemma with_buffer_same (this : NtIoOutputBuffer.t) :
  with_buffer this (NtIoOutputBuffer.buffer this) = this.
Proof. destruct this; reflexivity. Qed.

(** [write] as the sequence of its three calls on the vector. *)
Lemma write_unfold heap (rb : list byte) (n : Z) (this : NtIoOutputBuffer.t) :
  NtIoOutputBuffer.write heap rb n this =
  if n =? 0 then Return tt this
  else
    let oldSize := NtIoOutputBuffer.size this in
    let newSize := to_size_t (oldSize + n) in
    let k := to_size_t (NtIoOutputBuffer.memoryStepping this + 1) in
    if k <? INT_VALUE_BITS then
      let mask := to_size_t (to_size_t (Z.shiftl 1 k) - 1) in
      let target := NtIoOutputBuffer.round_up newSize mask in
      let grown :=
        if capacity (NtIoOutputBuffer.buffer this) <? target then
          vector_reserve heap target (NtIoOutputBuffer.buffer this)
        else Return tt (NtIoOutputBuffer.buffer this) in
      match grown with
      | Return _ v =>
          match vector_resize heap newSize v with
          | Return _ v' =>
              match memcpy (elems v') oldSize rb n with
              | Some e =>
                  Return tt
                    (with_buffer this {| elems := e; capacity := capacity v' |})
              | None => Undefined
              end
          | Raise x v' => leaving x (with_buffer this v')
          | Terminate => Terminate
          | Undefined => Undefined
          | Blocked => Blocked
          end
      | Raise x v => Raise (as_allocation_failure x) (with_buffer this v)
      | Terminate => Terminate
      | Undefined => Undefined
      | Blocked => Blocked
      end
    else Undefined.
Proof.
  unfold NtIoOutputBuffer.write, throw_spec_NtIoException.
  destruct (n =? 0); [reflexivity|].
  unfold bind, gets, NtIoOutputBuffer.stepSize. cbv zeta.
  destruct (to_size_t (NtIoOutputBuffer.memoryStepping this + 1)
            <? INT_VALUE_BITS); [|reflexivity].
  unfold try_catch, NtIoOutputBuffer.on_buffer, zoom, ret, throw, with_buffer,
    vector_memcpy, leaving.
  destruct (capacity (NtIoOutputBuffer.buffer this) <? _).
  - destruct (vector_reserve _ _ _) as [[] v|x v| | |];
      cbn [NtIoOutputBuffer.buffer NtIoOutputBuffer.memoryStepping];
      try reflexivity; [|destruct x; reflexivity].
    destruct (vector_resize _ _ _) as [[] v'|x v'| | |];
      cbn [NtIoOutputBuffer.buffer NtIoOutputBuffer.memoryStepping];
      try reflexivity; try (destruct x; reflexivity).
    destruct (memcpy _ _ _ _); reflexivity.
  - destruct this as [b ms];
      cbn [NtIoOutputBuffer.buffer NtIoOutputBuffer.memoryStepping].
    destruct (vector_resize _ _ _) as [[] v'|x v'| | |];
      cbn [NtIoOutputBuffer.buffer NtIoOutputBuffer.memoryStepping];
      try reflexivity; try (destruct x; reflexivity).
    destruct (memcpy _ _ _ _); reflexivity.
Qed.

(** The mask of a defined step. *)
Lemma mask_value (k : Z) :
  0 <= k < INT_VALUE_BITS ->
  to_size_t (to_size_t (Z.shiftl 1 k) - 1) = 2 ^ k - 1
  /\ 1 <= 2 ^ k <= 2 ^ 30.
Proof.
  unfold INT_VALUE_BITS. intros Hk.
  assert (1 <= 2 ^ k <= 2 ^ 30) as Hp.
  { split.
    - pose proof (Z.pow_pos_nonneg 2 k ltac:(lia) ltac:(lia)). lia.
    - apply Z.pow_le_mono_r; lia. }
  split; [|exact Hp].
  rewrite Z.shiftl_mul_pow2, Z.mul_1_l by lia.
  assert (2 ^ 30 = 1073741824) as H30 by reflexivity.
  rewrite (to_size_t_small (2 ^ k)) by (unfold SIZE_MAX, SIZE_BITS; lia).
  apply to_size_t_small. unfold SIZE_MAX, SIZE_BITS. lia.
Qed.

Lemma step_of_stepping (ms : Z) :
  0 <= ms <= 29 ->
  to_size_t (ms + 1) = ms + 1 /\ 0 <= ms + 1 < INT_VALUE_BITS.
Proof.
  intros H. unfold INT_VALUE_BITS. split; [|lia].
  apply to_size_t_small. unfold SIZE_MAX, SIZE_BITS. lia.
Qed.

(** Whatever the sum does, the rounding yields a multiple of the step that
    is a [size_t]. *)
Lemma round_up_multiple (k x : Z) :
  0 <= k -> (2 ^ k | NtIoOutputBuffer.round_up x (2 ^ k - 1)).
Proof.
  intros Hk. unfold NtIoOutputBuffer.round_up.
  rewrite or_xor_mask by exact Hk.
  assert (0 < 2 ^ k) as Hpos by (apply Z.pow_pos_nonneg; lia).
  set (y := to_size_t _).
  exists (y / 2 ^ k). pose proof (Z.div_mod y (2 ^ k)). lia.
Qed.

Lemma round_up_bounds (k x : Z) :
  0 <= k -> 0 <= x -> x + (2 ^ k - 1) <= SIZE_MAX ->
  x <= NtIoOutputBuffer.round_up x (2 ^ k - 1) <= x + (2 ^ k - 1).
Proof.
  intros Hk Hx Hb. rewrite round_up_no_wrap by assumption.
  assert (0 < 2 ^ k) as Hpos by (apply Z.pow_pos_nonneg; lia).
  pose proof (Z.mod_pos_bound (x + (2 ^ k - 1)) (2 ^ k) Hpos). lia.
Qed.

(** The outcome of a [write] of a positive size whose sum does not wrap. *)
Lemma write_equation heap (rb : list byte) (n : Z) (this : NtIoOutputBuffer.t) :
  let k := to_size_t (NtIoOutputBuffer.memoryStepping this + 1) in
  let newSize := NtIoOutputBuffer.size this + n in
  let target := NtIoOutputBuffer.round_up newSize (2 ^ k - 1) in
  let cap := capacity (NtIoOutputBuffer.buffer this) in
  let appended := elems (NtIoOutputBuffer.buffer this)
                    ++ firstn (Z.to_nat n) rb in
  vector_valid (NtIoOutputBuffer.buffer this) ->
  0 <= k < INT_VALUE_BITS ->
  0 < n <= len rb ->
  newSize <= SIZE_MAX - (2 ^ k - 1) ->
  NtIoOutputBuffer.write heap rb n this =
  if cap <? target then
    if (target <=? max_size) && heap target then
      Return tt (with_buffer this {| elems := appended; capacity := target |})
    else throw eioAllocation this
  else Return tt (with_buffer this {| elems := appended; capacity := cap |}).
Proof.
  intros k newSize target cap appended Hv Hk Hn Hb.
  destruct (mask_value k Hk) as [Hmask Hpow].
  pose proof (len_nonneg (elems (NtIoOutputBuffer.buffer this))) as Hlen.
  assert (0 <= newSize <= SIZE_MAX) as Hns
      by (subst newSize; unfold NtIoOutputBuffer.size, vector_size in *; lia).
  pose proof (round_up_bounds k newSize ltac:(lia) ltac:(lia) ltac:(lia))
    as Hround.
  fold target in Hround.
  rewrite write_unfold.
  destruct (Z.eqb_spec n 0) as [|_]; [lia|]. cbv zeta.
  fold k. destruct (Z.ltb_spec k INT_VALUE_BITS) as [_|]; [|lia].
  rewrite Hmask.
  fold newSize. rewrite (to_size_t_small newSize Hns). fold target. fold cap.
  unfold NtIoOutputBuffer.size, vector_size in *.
  unfold vector_valid in Hv. fold cap in Hv.
  destruct (Z.ltb_spec cap target) as [Hlt|Hge].
  - unfold vector_reserve. fold cap.
    destruct (Z.leb_spec target max_size) as [Hfit|Hbig].
    + destruct (Z.ltb_spec max_size target) as [|_]; [lia|].
      destruct (Z.ltb_spec cap target) as [_|]; [|lia].
      simpl. destruct (heap target).
      * rewrite vector_resize_within_capacity by (simpl; lia).
        cbn [elems capacity].
        replace (newSize - len (elems (NtIoOutputBuffer.buffer this)))
          with n by (subst newSize; lia).
        rewrite memcpy_tail by lia. reflexivity.
      * simpl. unfold throw. rewrite with_buffer_same. reflexivity.
    + destruct (Z.ltb_spec max_size target) as [_|]; [|lia].
      simpl. unfold throw. rewrite with_buffer_same. reflexivity.
  - rewrite vector_resize_within_capacity by (fold cap; lia).
    cbn [elems capacity].
    replace (newSize - len (elems (NtIoOutputBuffer.buffer this)))
      with n by (subst newSize; lia).
    rewrite memcpy_tail by lia. reflexivity.
Qed.

(** A [write] of a positive size that returns stayed within the limits. *)
Lemma write_return_bounds heap (rb : list byte) (n : Z)
      (this this' : NtIoOutputBuffer.t) :
  vector_valid (NtIoOutputBuffer.buffer this) ->
  0 < n ->
  NtIoOutputBuffer.write heap rb n this = Return tt this' ->
  0 <= to_size_t (NtIoOutputBuffer.memoryStepping this + 1) < INT_VALUE_BITS
  /\ n <= len rb
  /\ NtIoOutputBuffer.size this + n <= max_size.
Proof.
  intros Hv Hn. rewrite write_unfold.
  destruct (Z.eqb_spec n 0) as [|_]; [lia|]. cbv zeta.
  set (k := to_size_t (NtIoOutputBuffer.memoryStepping this + 1)).
  destruct (Z.ltb_spec k INT_VALUE_BITS) as [Hk|]; [|discriminate].
  pose proof (to_size_t_range (NtIoOutputBuffer.memoryStepping this + 1)) as Hk0.
  fold k in Hk0.
  destruct (mask_value k ltac:(lia)) as [Hmask Hpow]. rewrite Hmask.
  set (newSize := to_size_t (NtIoOutputBuffer.size this + n)).
  set (target := NtIoOutputBuffer.round_up newSize (2 ^ k - 1)).
  pose proof (to_size_t_range (NtIoOutputBuffer.size this + n)) as Hns.
  fold newSize in Hns.
  assert ((exists v, (if capacity (NtIoOutputBuffer.buffer this) <? target
                     then vector_reserve heap target (NtIoOutputBuffer.buffer this)
                     else Return tt (NtIoOutputBuffer.buffer this))
                    = Return tt v
                    /\ vector_valid v
                    /\ elems v = elems (NtIoOutputBuffer.buffer this))
          \/ forall v, (if capacity (NtIoOutputBuffer.buffer this) <? target
                        then vector_reserve heap target
                               (NtIoOutputBuffer.buffer this)
                        else Return tt (NtIoOutputBuffer.buffer this))
                       <> Return tt v) as Hgrown.
  { destruct (Z.ltb_spec (capacity (NtIoOutputBuffer.buffer this)) target).
    - destruct (vector_reserve_outcomes heap target
                  (NtIoOutputBuffer.buffer this)) as [[v' Hr]|[x Hr]].
      + left. exists v'. split; [exact Hr|].
        apply vector_reserve_return in Hr as (He & Hc & Hm).
        unfold vector_valid in *. rewrite He, Hc. split; [lia|reflexivity].
      + rewrite Hr. right. intros v. discriminate.
    - left. exists (NtIoOutputBuffer.buffer this). auto. }
  destruct Hgrown as [(v & Hg & Hvv & Hev)|Hno].
  - rewrite Hg.
    destruct (vector_resize heap newSize v) as [[] v'|x v'| | |] eqn:Hrs;
      try discriminate.
    + apply vector_resize_return in Hrs as [Hl Hm]; [|exact Hvv|lia].
      destruct (memcpy _ _ _ _) as [e|] eqn:Hcp; [|discriminate].
      apply memcpy_some in Hcp as (_ & _ & Hfit & Hsrc & _).
      intros _. unfold NtIoOutputBuffer.size, vector_size in *.
      repeat split; lia.
    + apply vector_resize_raise in Hrs as [-> | ->]; discriminate.
  - destruct (if _ <? _ then _ else _) as [[] v|x v| | |];
      try discriminate. exfalso. exact (Hno v eq_refl).
Qed.

(** A [write] that raises raises AllocationFailure and changes nothing. *)
Lemma write_raise_inv heap (rb : list byte) (n : Z)
      (this this' : NtIoOutputBuffer.t) (x : exn) :
  NtIoOutputBuffer.write heap rb n this = Raise x this' ->
  x = NtIo {| ioErrorCode := eioAllocation |} /\ this' = this.
Proof.
  rewrite write_unfold.
  destruct (n =? 0); [discriminate|]. cbv zeta.
  destruct (_ <? INT_VALUE_BITS); [|discriminate].
  destruct (capacity (NtIoOutputBuffer.buffer this) <? _).
  - destruct (vector_reserve _ _ _) as [[] v|x0 v| | |] eqn:Hr; try discriminate.
    + destruct (vector_resize _ _ _) as [[] v'|x1 v'| | |] eqn:Hrs;
        try discriminate.
      * destruct (memcpy _ _ _ _); discriminate.
      * apply vector_resize_raise in Hrs as [-> | ->]; discriminate.
    + apply vector_reserve_raise in Hr as [-> Hx].
      rewrite with_buffer_same.
      destruct Hx as [-> | ->]; intros [= <- <-]; auto.
  - destruct (vector_resize _ _ _) as [[] v'|x1 v'| | |] eqn:Hrs;
      try discriminate.
    + destruct (memcpy _ _ _ _); discriminate.
    + apply vector_resize_raise in Hrs as [-> | ->]; discriminate.
Qed.

Lemma firstn_len (c : list byte) : firstn (Z.to_nat (len c)) c = c.
Proof. unfold len. rewrite Nat2Z.id. apply firstn_all. Qed.

(** A [write] of a positive size that returns: what it leaves behind. *)
Lemma write_return_inv heap (rb : list byte) (n : Z)
      (this this' : NtIoOutputBuffer.t) :
  let k := to_size_t (NtIoOutputBuffer.memoryStepping this + 1) in
  let newSize := NtIoOutputBuffer.size this + n in
  let target := NtIoOutputBuffer.round_up newSize (2 ^ k - 1) in
  let cap := capacity (NtIoOutputBuffer.buffer this) in
  vector_valid (NtIoOutputBuffer.buffer this) ->
  0 < n ->
  NtIoOutputBuffer.write heap rb n this = Return tt this' ->
  0 <= k < INT_VALUE_BITS
  /\ n <= len rb
  /\ newSize <= target <= max_size
  /\ this' = with_buffer this
               {| elems := elems (NtIoOutputBuffer.buffer this)
                             ++ firstn (Z.to_nat n) rb;
                  capacity := if cap <? target then target else cap |}.
Proof.
  intros k newSize target cap Hv Hn Hw.
  destruct (write_return_bounds heap rb n this this' Hv Hn Hw)
    as (Hk & Hsrc & Hfit).
  fold k in Hk. fold newSize in Hfit.
  destruct (mask_value k Hk) as [_ Hpow].
  assert (2 ^ 30 = 1073741824) as H30 by reflexivity.
  assert (max_size = 9223372036854775807) as Hmax by reflexivity.
  assert (SIZE_MAX = 18446744073709551615) as Hsmax by reflexivity.
  pose proof (len_nonneg (elems (NtIoOutputBuffer.buffer this))) as Hlen.
  assert (0 <= newSize)
    by (subst newSize; unfold NtIoOutputBuffer.size, vector_size; lia).
  pose proof (round_up_bounds k newSize ltac:(lia) ltac:(lia) ltac:(lia))
    as Hround.
  fold target in Hround.
  rewrite write_equation in Hw; [|exact Hv|exact Hk|lia|fold k newSize; lia].
  cbv zeta in Hw. fold k newSize target cap in Hw.
  unfold vector_valid in Hv. fold cap in Hv.
  destruct (Z.ltb_spec cap target).
  - destruct (Z.leb_spec target max_size); simpl in Hw.
    + destruct (heap target); [|discriminate].
      injection Hw as <-. repeat split; try lia.
    + discriminate.
  - injection Hw as <-. repeat split; lia.
Qed.

Lemma write_all_cons heap (c : list byte) (rest : list (list byte))
      (this : NtIoOutputBuffer.t) :
  NtIoOutputBuffer.write_all heap (c :: rest) this =
  match NtIoOutputBuffer.write heap c (len c) this with
  | Return _ s => NtIoOutputBuffer.write_all heap rest s
  | Raise x s => Raise x s
  | Terminate => Terminate
  | Undefined => Undefined
  | Blocked => Blocked
  end.
Proof. reflexivity. Qed.

(** A [write] under the default stepping that the allocator serves. *)
Lemma write_default_stepping heap (c e : list byte) (cap target : Z) :
  len e <= cap <= max_size ->
  0 < len c ->
  len e + len c <= max_size ->
  target = NtIoOutputBuffer.round_up (len e + len c) 63 ->
  target <= max_size ->
  heap target = true ->
  NtIoOutputBuffer.write heap c (len c)
    {| NtIoOutputBuffer.buffer := {| elems := e; capacity := cap |};
       NtIoOutputBuffer.memoryStepping := 5 |}
  = Return tt
      {| NtIoOutputBuffer.buffer :=
           {| elems := e ++ c; capacity := Z.max cap target |};
         NtIoOutputBuffer.memoryStepping := 5 |}.
Proof.
  intros Hv Hc Hsum Ht Hfit Hheap.
  set (this := {| NtIoOutputBuffer.buffer := {| elems := e; capacity := cap |};
                  NtIoOutputBuffer.memoryStepping := 5 |}).
  pose proof (write_equation heap c (len c) this) as Heq.
  cbv zeta in Heq.
  change (to_size_t (NtIoOutputBuffer.memoryStepping this + 1)) with 6 in Heq.
  change (2 ^ 6 - 1) with 63 in Heq.
  change (NtIoOutputBuffer.size this) with (len e) in Heq.
  change (capacity (NtIoOutputBuffer.buffer this)) with cap in Heq.
  change (elems (NtIoOutputBuffer.buffer this)) with e in Heq.
  rewrite <- Ht, firstn_len in Heq.
  rewrite Heq.
  - unfold with_buffer. simpl.
    destruct (Z.ltb_spec cap target).
    + rewrite Hheap. destruct (Z.leb_spec target max_size); [|lia]. simpl.
      rewrite Z.max_r by lia. reflexivity.
    + rewrite Z.max_l by lia. reflexivity.
  - exact Hv.
  - unfold INT_VALUE_BITS. lia.
  - lia.
  - unfold max_size, SIZE_MAX, SIZE_BITS in *. lia.
Qed.

Lemma write_10_50_10 heap (c1 c2 c3 : list byte) :
  len c1 = 10 -> len c2 = 50 -> len c3 = 10 ->
  heap 64 = true -> heap 128 = true ->
  NtIoOutputBuffer.write_all heap [c1; c2; c3]
    (NtIoOutputBuffer.new NtIoOutputBuffer.default_memoryStepping)
  = Return tt
      {| NtIoOutputBuffer.buffer :=
           {| elems := c1 ++ c2 ++ c3; capacity := 128 |};
         NtIoOutputBuffer.memoryStepping := 5 |}.
Proof.
  intros H1 H2 H3 G1 G2.
  unfold NtIoOutputBuffer.new, vector_empty,
    NtIoOutputBuffer.default_memoryStepping.
  assert (len (@nil byte) = 0) as Hnil by reflexivity.
  assert (max_size = 9223372036854775807) as Hmax by reflexivity.
  rewrite write_all_cons.
  rewrite (write_default_stepping heap c1 [] 0 64);
    [ | lia | lia | lia | rewrite Hnil, H1; reflexivity | lia | assumption ].
  rewrite write_all_cons.
  rewrite (write_default_stepping heap c2 _ _ 64);
    [ | rewrite app_nil_l; lia | lia | rewrite app_nil_l; lia
      | rewrite app_nil_l, H1, H2; reflexivity | lia | assumption ].
  rewrite write_all_cons.
  rewrite (write_default_stepping heap c3 _ _ 128);
    [ | rewrite app_nil_l, len_app; lia | lia | rewrite app_nil_l, len_app; lia
      | rewrite app_nil_l, len_app, H1, H2, H3; reflexivity | lia | assumption ].
  simpl. rewrite <- app_assoc. reflexivity.
Qed.

(** C3. A write of requestSize > 0 bytes (on a valid vector, a stepping whose
    shift is defined, a source holding the bytes and a new length below the
    wrap-around bound): the step is 2^(memoryStepping+1); the target computed
    by the mask is the least multiple of the step that is at least
    currentLength + requestSize; the storage is grown, to exactly the target,
    only when the capacity is smaller (and the write raises AllocationFailure
    when that growth is refused); a write that returns leaves the length at
    the new length, the old content in place and the written bytes at the
    tail. With the default stepping, writes of 10, 50 and 10 bytes end at
    length 70 and capacity 128. *)
Theorem write_rounds_capacity_and_appends :
  forall heap (this : NtIoOutputBuffer.t) (requestBuffer : list byte)
         (requestSize : Z),
    let step := 2 ^ (NtIoOutputBuffer.memoryStepping this + 1) in
    let newLength := NtIoOutputBuffer.size this + requestSize in
    let target := NtIoOutputBuffer.round_up newLength (step - 1) in
    let cap := capacity (NtIoOutputBuffer.buffer this) in
    let appended := elems (NtIoOutputBuffer.buffer this)
                      ++ firstn (Z.to_nat requestSize) requestBuffer in
    vector_valid (NtIoOutputBuffer.buffer this) ->
    0 <= NtIoOutputBuffer.memoryStepping this <= 29 ->
    0 < requestSize <= len requestBuffer ->
    newLength <= SIZE_MAX - (step - 1) ->
    NtIoOutputBuffer.stepSize this = Return step this
    /\ least_multiple_at_least step newLength target
    /\ NtIoOutputBuffer.write heap requestBuffer requestSize this
       = (if cap <? target then
            if (target <=? max_size) && heap target then
              Return tt
                (with_buffer this {| elems := appended; capacity := target |})
            else throw eioAllocation this
          else
            Return tt (with_buffer this {| elems := appended; capacity := cap |}))
    /\ (forall this',
           NtIoOutputBuffer.write heap requestBuffer requestSize this
           = Return tt this' ->
           NtIoOutputBuffer.size this' = newLength
           /\ capacity (NtIoOutputBuffer.buffer this')
              = (if cap <? target then target else cap)
           /\ firstn (Z.to_nat (NtIoOutputBuffer.size this))
                (elems (NtIoOutputBuffer.buffer this'))
              = elems (NtIoOutputBuffer.buffer this)
           /\ skipn (Z.to_nat (NtIoOutputBuffer.size this))
                (elems (NtIoOutputBuffer.buffer this'))
              = firstn (Z.to_nat requestSize) requestBuffer)
    /\ (forall c1 c2 c3 : list byte,
           len c1 = 10 -> len c2 = 50 -> len c3 = 10 ->
           heap 64 = true -> heap 128 = true ->
           exists final,
             NtIoOutputBuffer.write_all heap [c1; c2; c3]
               (NtIoOutputBuffer.new NtIoOutputBuffer.default_memoryStepping)
             = Return tt final
             /\ NtIoOutputBuffer.size final = 70
             /\ capacity (NtIoOutputBuffer.buffer final) = 128).
Proof.
  intros heap this rb n step newLength target cap appended Hv Hms Hn Hb.
  destruct (step_of_stepping _ Hms) as [Hk Hkr].
  destruct (mask_value _ Hkr) as [Hmask Hpow].
  pose proof (len_nonneg (elems (NtIoOutputBuffer.buffer this))) as Hlen.
  assert (0 <= newLength <= SIZE_MAX) as Hnl
      by (subst newLength step;
          unfold NtIoOutputBuffer.size, vector_size in *; lia).
  pose proof (write_equation heap rb n this) as Heq. cbv zeta in Heq.
  rewrite Hk in Heq. specialize (Heq Hv Hkr Hn Hb).
  fold step newLength target cap appended in Heq.
  split; [|split; [|split; [exact Heq|split]]].
  - unfold NtIoOutputBuffer.stepSize. rewrite Hk.
    destruct (Z.ltb_spec (NtIoOutputBuffer.memoryStepping this + 1)
                INT_VALUE_BITS); [|lia].
    rewrite Z.shiftl_mul_pow2, Z.mul_1_l by lia.
    rewrite to_size_t_small; [reflexivity|].
    assert (2 ^ 30 = 1073741824) as H30 by reflexivity.
    unfold SIZE_MAX, SIZE_BITS. lia.
  - apply round_up_is_least_multiple; [lia | lia | exact Hb].
  - intros this' Hw. rewrite Heq in Hw.
    assert (this' = with_buffer this
                      {| elems := appended;
                         capacity := if cap <? target then target else cap |})
      as ->.
    { destruct (cap <? target).
      - destruct ((target <=? max_size) && heap target); [|discriminate].
        injection Hw as <-. reflexivity.
      - injection Hw as <-. reflexivity. }
    unfold with_buffer, NtIoOutputBuffer.size, vector_size. simpl.
    subst appended. repeat split.
    + rewrite len_app, len_firstn by lia. subst newLength.
      unfold NtIoOutputBuffer.size, vector_size. lia.
    + apply firstn_len_app.
    + apply skipn_len_app.
  - intros c1 c2 c3 H1 H2 H3 G1 G2. eexists. split.
    + apply write_10_50_10; assumption.
    + unfold NtIoOutputBuffer.size, vector_size. simpl. split; [|reflexivity].
      rewrite !len_app. lia.
Qed.

(** C3 on a fresh buffer of the default stepping receiving three bytes. *)
Lemma write_rounds_capacity_and_appends_witness :
  NtIoOutputBuffer.write (fun _ => true) [x01; x02; x03] 3
    (NtIoOutputBuffer.new 5)
  = Return tt
      {| NtIoOutputBuffer.buffer :=
           {| elems := [x01; x02; x03]; capacity := 64 |};
         NtIoOutputBuffer.memoryStepping := 5 |}.
Proof.
  exact (proj1 (proj2 (proj2
           (write_rounds_capacity_and_appends (fun _ => true)
              (NtIoOutputBuffer.new 5) [x01; x02; x03] 3
              ltac:(vm_compute; split; discriminate)
              ltac:(vm_compute; split; discriminate)
              ltac:(vm_compute; split; [reflexivity | discriminate])
              ltac:(vm_compute; discriminate))))).
Defined.

(** The guarded [reserve] of [write]. When the capacity is below the target
    and the growth is refused, because the target exceeds the length limit of
    the vector or because the allocator has nothing left, [reserve] raises
    and leaves the vector as it was, and [write] raises AllocationFailure
    with the object (content, content length, capacity) exactly as before the
    call. *)
Theorem write_allocation_failure_is_atomic :
  forall heap (this : NtIoOutputBuffer.t) (requestBuffer : list byte)
         (requestSize : Z),
    let step := 2 ^ (NtIoOutputBuffer.memoryStepping this + 1) in
    let newSize := to_size_t (NtIoOutputBuffer.size this + requestSize) in
    let target := NtIoOutputBuffer.round_up newSize (step - 1) in
    requestSize <> 0 ->
    0 <= NtIoOutputBuffer.memoryStepping this <= 29 ->
    capacity (NtIoOutputBuffer.buffer this) < target ->
    max_size < target \/ heap target = false ->
    (exists x, vector_reserve heap target (NtIoOutputBuffer.buffer this)
               = Raise x (NtIoOutputBuffer.buffer this)
               /\ (x = std_length_error \/ x = std_bad_alloc))
    /\ NtIoOutputBuffer.write heap requestBuffer requestSize this
       = Raise (NtIo {| ioErrorCode := eioAllocation |}) this.
Proof.
  intros heap this rb n step newSize target Hn Hms Hcap Hfail.
  destruct (step_of_stepping _ Hms) as [Hk Hkr].
  destruct (mask_value _ Hkr) as [Hmask _].
  assert (exists x, vector_reserve heap target (NtIoOutputBuffer.buffer this)
                    = Raise x (NtIoOutputBuffer.buffer this)
                    /\ (x = std_length_error \/ x = std_bad_alloc)) as Hres.
  { unfold vector_reserve.
    destruct (Z.ltb_spec max_size target).
    - exists std_length_error. auto.
    - destruct Hfail as [|Hheap]; [lia|].
      destruct (Z.ltb_spec (capacity (NtIoOutputBuffer.buffer this)) target);
        [|lia].
      rewrite Hheap. exists std_bad_alloc. auto. }
  split; [exact Hres|].
  destruct Hres as (x & Hr & Hx).
  rewrite write_unfold.
  destruct (Z.eqb_spec n 0); [contradiction|]. cbv zeta.
  rewrite Hk, Hmask.
  destruct (Z.ltb_spec (NtIoOutputBuffer.memoryStepping this + 1)
              INT_VALUE_BITS); [|lia].
  fold step newSize target.
  destruct (Z.ltb_spec (capacity (NtIoOutputBuffer.buffer this)) target); [|lia].
  rewrite Hr, with_buffer_same.
  destruct Hx as [-> | ->]; reflexivity.
Qed.

(** The guarded [reserve] on a fresh buffer whose allocator refuses every
    request. *)
Lemma write_allocation_failure_is_atomic_witness :
  NtIoOutputBuffer.write (fun _ => false) [x01] 1 (NtIoOutputBuffer.new 5)
  = Raise (NtIo {| ioErrorCode := eioAllocation |}) (NtIoOutputBuffer.new 5).
Proof.
  exact (proj2
           (write_allocation_failure_is_atomic (fun _ => false)
              (NtIoOutputBuffer.new 5) [x01] 1
              ltac:(discriminate)
              ltac:(vm_compute; split; discriminate)
              ltac:(vm_compute; reflexivity)
              (or_intror eq_refl))).
Defined.

(** ** The capacity over the life of an output buffer *)

Lemma write_zero heap (rb : list byte) (this : NtIoOutputBuffer.t) :
  NtIoOutputBuffer.write heap rb 0 this = Return tt this.
Proof. reflexivity. Qed.

Lemma write_preserves_invariant heap (rb : list byte) (n stepping : Z)
      (this this' : NtIoOutputBuffer.t) :
  0 <= stepping <= 29 ->
  0 <= n <= SIZE_MAX ->
  buffer_invariant stepping this ->
  NtIoOutputBuffer.write heap rb n this = Return tt this' ->
  buffer_invariant stepping this'.
Proof.
  intros Hst Hn (Hms & Hv & Hdiv) Hw.
  destruct (Z.eq_dec n 0) as [-> | Hn0].
  { rewrite write_zero in Hw. injection Hw as <-.
    split; [|split]; assumption. }
  apply write_return_inv in Hw; [|exact Hv|lia].
  cbv zeta in Hw. rewrite Hms in Hw.
  destruct (step_of_stepping _ Hst) as [Hk Hkr]. rewrite Hk in Hw.
  destruct Hw as (_ & Hsrc & Hfit & ->).
  pose proof (round_up_multiple (stepping + 1)
                (NtIoOutputBuffer.size this + n) ltac:(lia)) as Hmul.
  set (target := NtIoOutputBuffer.round_up _ _) in *.
  unfold buffer_invariant, with_buffer, vector_valid in *. simpl.
  unfold NtIoOutputBuffer.size, vector_size in *.
  rewrite len_app, len_firstn by lia.
  destruct (Z.ltb_spec (capacity (NtIoOutputBuffer.buffer this)) target);
    repeat split; try assumption; lia.
Qed.

Lemma reachable_invariant (stepping : Z) (this : NtIoOutputBuffer.t) :
  0 <= stepping <= 29 ->
  NtIoOutputBuffer.reachable stepping this ->
  buffer_invariant stepping this.
Proof.
  intros Hst Hreach.
  induction Hreach as [ | heap this rb n this' _ IH Hn Hw
                        | heap this rb n x this' _ IH Hn Hw ].
  - unfold buffer_invariant, vector_valid. simpl.
    repeat split; try reflexivity; try (unfold max_size; lia).
    apply Z.divide_0_r.
  - eapply write_preserves_invariant; eassumption.
  - apply write_raise_inv in Hw as [_ ->]. exact IH.
Qed.

(** C5, as the code has it. After every sequence of writes on a buffer
    constructed with a stepping from 0 to 29, failed writes included, the
    capacity is a multiple of the step 2^(memoryStepping+1) and at least the
    content length. *)
Theorem capacity_is_step_multiple_and_covers_content :
  forall (stepping : Z) (this : NtIoOutputBuffer.t),
    0 <= stepping <= 29 ->
    NtIoOutputBuffer.reachable stepping this ->
    (2 ^ (stepping + 1) | capacity (NtIoOutputBuffer.buffer this))
    /\ NtIoOutputBuffer.size this <= capacity (NtIoOutputBuffer.buffer this).
Proof.
  intros stepping this Hst Hreach.
  destruct (reachable_invariant stepping this Hst Hreach) as (_ & Hv & Hdiv).
  split; [exact Hdiv|]. unfold vector_valid in Hv.
  unfold NtIoOutputBuffer.size, vector_size. lia.
Qed.

Lemma reachable_after_130_bytes :
  NtIoOutputBuffer.reachable 5
    {| NtIoOutputBuffer.buffer :=
         {| elems := repeat x00 130; capacity := 192 |};
       NtIoOutputBuffer.memoryStepping := 5 |}.
Proof.
  apply (NtIoOutputBuffer.reach_return 5 (fun _ => true)
           (NtIoOutputBuffer.new 5) (repeat x00 130) 130).
  - apply NtIoOutputBuffer.reach_new.
  - unfold SIZE_MAX, SIZE_BITS. lia.
  - vm_compute. reflexivity.
Qed.

(** C5 on the buffer of the default stepping after one write of 130 bytes. *)
Lemma capacity_is_step_multiple_and_covers_content_witness :
  (64 | 192) /\ 130 <= 192.
Proof.
  exact (capacity_is_step_multiple_and_covers_content 5 _
           ltac:(lia) reachable_after_130_bytes).
Defined.

Lemma three_is_no_power_of_two (k : nat) : 2 ^ Z.of_nat k <> 3.
Proof.
  destruct k as [|[|k]]; try (simpl; lia).
  rewrite !Nat2Z.inj_succ, !Z.pow_succ_r by lia.
  pose proof (Z.pow_pos_nonneg 2 (Z.of_nat k) ltac:(lia) ltac:(lia)). lia.
Qed.

(** C5 as stated fails: one write of 130 bytes to a buffer of the default
    stepping leaves the capacity at 192 = 3 * 64, which is no power-of-two
    multiple of the step 64. *)
Lemma capacity_power_of_two_multiple_counterexample :
  ~ (forall (stepping : Z) (this : NtIoOutputBuffer.t),
        0 <= stepping <= 29 ->
        NtIoOutputBuffer.reachable stepping this ->
        power_of_two_multiple (2 ^ (stepping + 1))
          (capacity (NtIoOutputBuffer.buffer this))
        /\ NtIoOutputBuffer.size this
           <= capacity (NtIoOutputBuffer.buffer this)).
Proof.
  intros Hclaim.
  destruct (Hclaim 5 _ ltac:(lia) reachable_after_130_bytes) as [[k Hk] _].
  simpl in Hk. apply (three_is_no_power_of_two k). lia.
Qed.

(** ** NtIoInputBuffer::read *)

Lemma len_readable (p : pointer) :
  0 <= offset p -> len (readable p) = Z.max 0 (len (block p) - offset p).
Proof.
  intros Hp. unfold readable, len.
  destruct (Z.leb_spec 0 (offset p)); [|lia].
  rewrite length_skipn. lia.
Qed.

Lemma firstn_0_app_skipn (src dst : list byte) (n : Z) :
  firstn (Z.to_nat 0) dst ++ firstn (Z.to_nat n) src
    ++ skipn (Z.to_nat (0 + n)) dst
  = firstn (Z.to_nat n) src ++ skipn (Z.to_nat n) dst.
Proof. rewrite Z.add_0_l. reflexivity. Qed.

(** A read that fails. *)
Lemma read_closed (this : NtIoInputBuffer.t) (dst : list byte) (n : Z) :
  NtIoInputBuffer.size this < n ->
  NtIoInputBuffer.read n (this, dst)
  = Raise (NtIo {| ioErrorCode := eioStreamClosed |}) (this, dst).
Proof.
  intros Hn. unfold NtIoInputBuffer.read, throw_spec_NtIoException, throw.
  destruct (Z.ltb_spec (NtIoInputBuffer.size this) n); [reflexivity|lia].
Qed.

(** A read that is served. *)
Lemma read_served (this : NtIoInputBuffer.t) (dst : list byte) (n : Z) :
  NtIoInputBuffer.valid this ->
  0 <= n <= NtIoInputBuffer.size this ->
  n <= len dst ->
  NtIoInputBuffer.read n (this, dst)
  = Return tt
      ({| NtIoInputBuffer.size := NtIoInputBuffer.size this - n;
          NtIoInputBuffer.buffer := advance (NtIoInputBuffer.buffer this) n |},
       firstn (Z.to_nat n) (readable (NtIoInputBuffer.buffer this))
         ++ skipn (Z.to_nat n) dst).
Proof.
  intros (Hoff & Hsz & Hreg) Hn Hdst.
  unfold NtIoInputBuffer.read, throw_spec_NtIoException.
  destruct (Z.ltb_spec (NtIoInputBuffer.size this) n); [lia|].
  rewrite memcpy_in_range;
    [ | lia | lia | lia | rewrite len_readable by exact Hoff; lia ].
  rewrite firstn_0_app_skipn, to_size_t_small by lia. reflexivity.
Qed.

(** C6. A read of more than the remaining length raises StreamClosed and
    leaves the object (pointer and remaining length) and the destination as
    they were; a following read of at most the remaining length on the same
    buffer is served from the unchanged position. Over a region of five
    bytes, a read of 6 raises StreamClosed and the read of 5 after it returns
    the five bytes. *)
Theorem read_beyond_remaining_is_rejected_unchanged :
  forall (this : NtIoInputBuffer.t) (dst : list byte) (requestSize : Z),
    NtIoInputBuffer.size this < requestSize ->
    NtIoInputBuffer.read requestSize (this, dst)
    = Raise (NtIo {| ioErrorCode := eioStreamClosed |}) (this, dst)
    /\ (forall state' x n,
           NtIoInputBuffer.read requestSize (this, dst) = Raise x state' ->
           NtIoInputBuffer.valid this ->
           0 <= n <= NtIoInputBuffer.size this -> n <= len dst ->
           NtIoInputBuffer.read n state'
           = Return tt
               ({| NtIoInputBuffer.size := NtIoInputBuffer.size this - n;
                   NtIoInputBuffer.buffer :=
                     advance (NtIoInputBuffer.buffer this) n |},
                firstn (Z.to_nat n) (readable (NtIoInputBuffer.buffer this))
                  ++ skipn (Z.to_nat n) dst))
    /\ (forall region out : list byte,
           len region = 5 -> len out = 5 ->
           let fresh :=
             NtIoInputBuffer.new {| block := region; offset := 0 |} 5 in
           NtIoInputBuffer.read 6 (fresh, out)
           = Raise (NtIo {| ioErrorCode := eioStreamClosed |}) (fresh, out)
           /\ NtIoInputBuffer.read 5 (fresh, out)
              = Return tt
                  ({| NtIoInputBuffer.size := 0;
                      NtIoInputBuffer.buffer :=
                        {| block := region; offset := 5 |} |},
                   region)).
Proof.
  intros this dst requestSize Hbig. split; [|split].
  - apply read_closed. exact Hbig.
  - intros state' x n Hfail Hvalid Hn Hdst.
    rewrite read_closed in Hfail by exact Hbig. injection Hfail as _ <-.
    apply read_served; assumption.
  - intros region out Hr Ho fresh. split.
    + apply read_closed. simpl. lia.
    + assert (firstn (Z.to_nat 5) region = region) as Hall
          by (rewrite <- Hr; apply firstn_len).
      assert (skipn (Z.to_nat 5) out = []) as Hnone
          by (rewrite <- Ho; apply skipn_all2; unfold len; lia).
      rewrite read_served.
      * change (readable (NtIoInputBuffer.buffer fresh)) with region.
        rewrite Hall, Hnone, app_nil_r. reflexivity.
      * subst fresh. unfold NtIoInputBuffer.valid. simpl.
        unfold SIZE_MAX, SIZE_BITS. lia.
      * simpl. lia.
      * lia.
Qed.

(** C6 on the region 1, 2, 3, 4, 5: a read of 6, then a read of 5. *)
Lemma read_beyond_remaining_is_rejected_unchanged_witness :
  let fresh :=
    NtIoInputBuffer.new {| block := [x01; x02; x03; x04; x05]; offset := 0 |} 5
  in
  NtIoInputBuffer.read 6 (fresh, repeat x00 6)
  = Raise (NtIo {| ioErrorCode := eioStreamClosed |}) (fresh, repeat x00 6).
Proof.
  exact (proj1
           (read_beyond_remaining_is_rejected_unchanged
              (NtIoInputBuffer.new
                 {| block := [x01; x02; x03; x04; x05]; offset := 0 |} 5)
              (repeat x00 6) 6 ltac:(vm_compute; reflexivity))).
Defined.

(** C7. A read of at most the remaining length from a valid buffer into a
    destination with room returns; the destination receives exactly
    requestSize bytes, those at the current position of the region; the
    pointer moves forward by requestSize and the remaining length drops by
    requestSize. *)
Theorem read_within_remaining_copies_and_advances :
  forall (this : NtIoInputBuffer.t) (dst : list byte) (requestSize : Z),
    NtIoInputBuffer.valid this ->
    0 <= requestSize <= NtIoInputBuffer.size this ->
    requestSize <= len dst ->
    let copied :=
      firstn (Z.to_nat requestSize)
        (skipn (Z.to_nat (offset (NtIoInputBuffer.buffer this)))
           (block (NtIoInputBuffer.buffer this))) in
    exists this' dst',
      NtIoInputBuffer.read requestSize (this, dst) = Return tt (this', dst')
      /\ dst' = copied ++ skipn (Z.to_nat requestSize) dst
      /\ len copied = requestSize
      /\ len dst' = len dst
      /\ block (NtIoInputBuffer.buffer this')
         = block (NtIoInputBuffer.buffer this)
      /\ offset (NtIoInputBuffer.buffer this')
         = offset (NtIoInputBuffer.buffer this) + requestSize
      /\ NtIoInputBuffer.size this' = NtIoInputBuffer.size this - requestSize.
Proof.
  intros this dst n Hvalid Hn Hdst copied.
  pose proof Hvalid as (Hoff & Hsz & Hreg).
  eexists. eexists. split; [apply read_served; assumption|].
  assert (readable (NtIoInputBuffer.buffer this)
          = skipn (Z.to_nat (offset (NtIoInputBuffer.buffer this)))
              (block (NtIoInputBuffer.buffer this))) as Hrd.
  { unfold readable.
    destruct (Z.leb_spec 0 (offset (NtIoInputBuffer.buffer this)));
      [reflexivity|lia]. }
  assert (len copied = n) as Hcopied.
  { subst copied. rewrite <- Hrd, len_firstn, len_readable by lia. lia. }
  rewrite Hrd. fold copied. simpl.
  repeat split; try reflexivity; try exact Hcopied.
  rewrite len_app, Hcopied. unfold len. rewrite length_skipn.
  unfold len in Hdst. lia.
Qed.

(** C7 on the region 1, 2, 3, 4, 5: a read of 2 at the start. *)
Lemma read_within_remaining_copies_and_advances_witness :
  exists this' dst',
    NtIoInputBuffer.read 2
      (NtIoInputBuffer.new
         {| block := [x01; x02; x03; x04; x05]; offset := 0 |} 5,
       [x00; x00; x00])
    = Return tt (this', dst')
    /\ dst' = [x01; x02; x00]
    /\ offset (NtIoInputBuffer.buffer this') = 2
    /\ NtIoInputBuffer.size this' = 3.
Proof.
  destruct (read_within_remaining_copies_and_advances
              (NtIoInputBuffer.new
                 {| block := [x01; x02; x03; x04; x05]; offset := 0 |} 5)
              [x00; x00; x00] 2
              ltac:(vm_compute; repeat split; discriminate)
              ltac:(vm_compute; split; discriminate)
              ltac:(vm_compute; discriminate))
    as (this' & dst' & Hread & Hdst & _ & _ & _ & Hoff & Hsize).
  exists this', dst'. repeat split; assumption.
Defined.

(** ** Chunked writes and reading back *)

Lemma len_zero_nil (c : list byte) : len c = 0 -> c = [].
Proof. destruct c; [reflexivity|]. unfold len. simpl. lia. Qed.

Lemma write_all_content heap (chunks : list (list byte)) :
  forall this final : NtIoOutputBuffer.t,
    vector_valid (NtIoOutputBuffer.buffer this) ->
    NtIoOutputBuffer.write_all heap chunks this = Return tt final ->
    elems (NtIoOutputBuffer.buffer final)
    = elems (NtIoOutputBuffer.buffer this) ++ concat chunks
    /\ vector_valid (NtIoOutputBuffer.buffer final).
Proof.
  induction chunks as [|c rest IH]; intros this final Hv Hw.
  - injection Hw as <-. simpl. rewrite app_nil_r. auto.
  - rewrite write_all_cons in Hw.
    destruct (NtIoOutputBuffer.write heap c (len c) this)
      as [[] mid|x mid| | |] eqn:Hc; try discriminate.
    destruct (Z.eq_dec (len c) 0) as [Hz|Hnz].
    + rewrite Hz, write_zero in Hc. injection Hc as <-.
      rewrite (len_zero_nil c Hz). simpl. apply IH; assumption.
    + pose proof (len_nonneg c) as Hpos.
      apply write_return_inv in Hc; [|exact Hv|lia].
      cbv zeta in Hc. destruct Hc as (_ & _ & Hfit & ->).
      rewrite firstn_len in *.
      set (target := NtIoOutputBuffer.round_up _ _) in *.
      apply IH in Hw as [He Hvf].
      * split; [|exact Hvf]. rewrite He. unfold with_buffer. simpl.
        rewrite <- app_assoc. reflexivity.
      * unfold with_buffer, vector_valid in *. simpl.
        unfold NtIoOutputBuffer.size, vector_size in Hfit.
        rewrite len_app.
        destruct (Z.ltb_spec (capacity (NtIoOutputBuffer.buffer this)) target);
          lia.
Qed.

Lemma concat_len_cons (c : list byte) (rest : list (list byte)) :
  len (concat (c :: rest)) = len c + len (concat rest).
Proof. simpl. apply len_app. Qed.

(** With an allocator that serves every request up to the length limit and
    a total that leaves room for the last rounding, every write returns. *)
Lemma write_all_returns heap (stepping : Z) (chunks : list (list byte)) :
  0 <= stepping <= 29 ->
  (forall n, 0 <= n <= max_size -> heap n = true) ->
  forall this : NtIoOutputBuffer.t,
    NtIoOutputBuffer.memoryStepping this = stepping ->
    vector_valid (NtIoOutputBuffer.buffer this) ->
    NtIoOutputBuffer.size this + len (concat chunks) + 2 ^ (stepping + 1)
    <= max_size + 1 ->
    exists final, NtIoOutputBuffer.write_all heap chunks this = Return tt final.
Proof.
  intros Hst Hheap.
  destruct (step_of_stepping _ Hst) as [Hk Hkr].
  destruct (mask_value _ Hkr) as [_ Hpow].
  assert (max_size = 9223372036854775807) as Hmax by reflexivity.
  assert (SIZE_MAX = 18446744073709551615) as Hsmax by reflexivity.
  induction chunks as [|c rest IH]; intros this Hms Hv Hfit.
  - exists this. reflexivity.
  - rewrite write_all_cons. rewrite concat_len_cons in Hfit.
    pose proof (len_nonneg c) as Hc.
    pose proof (len_nonneg (concat rest)) as Hrest.
    pose proof (len_nonneg (elems (NtIoOutputBuffer.buffer this))) as Hlen.
    destruct (Z.eq_dec (len c) 0) as [Hz|Hnz].
    + rewrite Hz, write_zero. apply IH; [assumption|assumption|lia].
    + pose proof (write_equation heap c (len c) this) as Heq.
      cbv zeta in Heq. rewrite Hms, Hk in Heq.
      unfold NtIoOutputBuffer.size, vector_size in *.
      pose proof (round_up_bounds (stepping + 1)
                    (len (elems (NtIoOutputBuffer.buffer this)) + len c)
                    ltac:(lia) ltac:(lia) ltac:(lia)) as Hround.
      rewrite Heq; [|exact Hv|exact Hkr|lia|lia].
      set (target := NtIoOutputBuffer.round_up _ _) in *.
      unfold vector_valid in Hv. rewrite firstn_len.
      destruct (Z.ltb_spec (capacity (NtIoOutputBuffer.buffer this)) target).
      * destruct (Z.leb_spec target max_size); [|lia].
        rewrite Hheap by lia. simpl.
        apply IH; unfold with_buffer, vector_valid; simpl;
          [assumption | rewrite len_app; lia | rewrite len_app; lia].
      * apply IH; unfold with_buffer, vector_valid; simpl;
          [assumption | rewrite len_app; lia | rewrite len_app; lia].
Qed.

(** C4. For every allocator, stepping and list of chunks: when the writes
    of the chunks in order all return, the content at [data()] over [size()]
    is the concatenation S of the chunks, whatever the chunking, [size()] is
    the length of S, and a read of [size()] bytes through an NtIoInputBuffer
    over [data()] and [size()] returns S. The writes do all return when the
    allocator serves requests up to the length limit and S with one step of
    rounding stays within that limit. *)
Theorem chunked_writes_read_back_unchanged :
  forall heap (stepping : Z) (chunks : list (list byte)),
    let S := concat chunks in
    (forall (final : NtIoOutputBuffer.t) (dst : list byte),
        NtIoOutputBuffer.write_all heap chunks (NtIoOutputBuffer.new stepping)
        = Return tt final ->
        len S <= len dst ->
        firstn (Z.to_nat (NtIoOutputBuffer.size final))
          (readable (NtIoOutputBuffer.data final)) = S
        /\ NtIoOutputBuffer.size final = len S
        /\ NtIoInputBuffer.read (NtIoOutputBuffer.size final)
             (NtIoInputBuffer.new (NtIoOutputBuffer.data final)
                (NtIoOutputBuffer.size final), dst)
           = Return tt
               ({| NtIoInputBuffer.size := 0;
                   NtIoInputBuffer.buffer :=
                     advance (NtIoOutputBuffer.data final)
                       (NtIoOutputBuffer.size final) |},
                S ++ skipn (Z.to_nat (len S)) dst)
        /\ (forall heap' stepping' chunks' final',
               concat chunks' = S ->
               NtIoOutputBuffer.write_all heap' chunks'
                 (NtIoOutputBuffer.new stepping') = Return tt final' ->
               elems (NtIoOutputBuffer.buffer final')
               = elems (NtIoOutputBuffer.buffer final)))
    /\ (0 <= stepping <= 29 ->
        (forall n, 0 <= n <= max_size -> heap n = true) ->
        len S + 2 ^ (stepping + 1) <= max_size + 1 ->
        exists final,
          NtIoOutputBuffer.write_all heap chunks (NtIoOutputBuffer.new stepping)
          = Return tt final).
Proof.
  intros heap stepping chunks S.
  assert (vector_valid (NtIoOutputBuffer.buffer (NtIoOutputBuffer.new stepping)))
    as Hnew by (unfold vector_valid, max_size; simpl; unfold len; simpl; lia).
  split.
  - intros final dst Hw Hdst.
    destruct (write_all_content heap chunks _ final Hnew Hw) as [He Hv].
    simpl in He. fold S in He.
    assert (readable (NtIoOutputBuffer.data final) = S) as Hrd
        by (unfold readable, NtIoOutputBuffer.data; simpl; exact He).
    assert (NtIoOutputBuffer.size final = len S) as Hsize
        by (unfold NtIoOutputBuffer.size, vector_size; rewrite He; reflexivity).
    pose proof (len_nonneg S) as HS.
    unfold vector_valid in Hv. rewrite He in Hv.
    assert (max_size = 9223372036854775807) as Hmax by reflexivity.
    assert (SIZE_MAX = 18446744073709551615) as Hsmax by reflexivity.
    split; [|split; [exact Hsize|split]].
    + rewrite Hrd, Hsize. apply firstn_len.
    + rewrite read_served.
      * simpl. rewrite Hrd, Hsize, firstn_len, Z.sub_diag. reflexivity.
      * unfold NtIoInputBuffer.valid. simpl. rewrite He, Hsize. lia.
      * simpl. lia.
      * lia.
    + intros heap' stepping' chunks' final' Hsame Hw'.
      assert (vector_valid
                (NtIoOutputBuffer.buffer (NtIoOutputBuffer.new stepping')))
        as Hnew' by exact Hnew.
      destruct (write_all_content heap' chunks' _ final' Hnew' Hw') as [He' _].
      simpl in He'. rewrite He', He. exact Hsame.
  - intros Hst Hheap Hfit.
    apply (write_all_returns heap stepping chunks Hst Hheap);
      [reflexivity | exact Hnew | exact Hfit].
Qed.

(** C4 on the bytes 1, 2, 3 written as the chunks [1, 2], [] and [3]. *)
Lemma chunked_writes_read_back_unchanged_witness :
  exists final,
    NtIoOutputBuffer.write_all (fun _ => true) [[x01; x02]; []; [x03]]
      (NtIoOutputBuffer.new 5) = Return tt final
    /\ NtIoOutputBuffer.size final = 3
    /\ NtIoInputBuffer.read (NtIoOutputBuffer.size final)
         (NtIoInputBuffer.new (NtIoOutputBuffer.data final)
            (NtIoOutputBuffer.size final), [x00; x00; x00])
       = Return tt
           ({| NtIoInputBuffer.size := 0;
               NtIoInputBuffer.buffer :=
                 advance (NtIoOutputBuffer.data final)
                   (NtIoOutputBuffer.size final) |},
            [x01; x02; x03]).
Proof.
  destruct (chunked_writes_read_back_unchanged (fun _ => true) 5
              [[x01; x02]; []; [x03]]) as [Hback Hruns].
  destruct (Hruns ltac:(lia) ltac:(reflexivity)
              ltac:(vm_compute; discriminate)) as [final Hfinal].
  exists final.
  destruct (Hback final [x00; x00; x00] Hfinal
              ltac:(vm_compute; discriminate)) as (_ & Hsize & Hread & _).
  repeat split; assumption.
Defined.

(** ** Requests of size zero *)

(** C9. A request of size zero returns and changes nothing: the output
    buffer keeps its vector (content, length and capacity), the input buffer
    keeps its pointer and remaining length and the destination its bytes, and
    the file stream returns without consuming any result of [::read] or
    [::write]. *)
Theorem zero_size_requests_are_no_ops :
  forall heap (E : errno_values)
         (out : NtIoOutputBuffer.t) (requestBuffer : list byte)
         (inp : NtIoInputBuffer.t) (dst : list byte)
         (file : NtIoFileStream.t) (w : NtIoFileStream.world),
    0 <= NtIoInputBuffer.size inp <= SIZE_MAX ->
    NtIoOutputBuffer.write heap requestBuffer 0 out = Return tt out
    /\ NtIoInputBuffer.read 0 (inp, dst) = Return tt (inp, dst)
    /\ NtIoFileStream.read E file 0 w = Return tt w
    /\ NtIoFileStream.write E file 0 w = Return tt w.
Proof.
  intros heap E out rb inp dst file w Hsize.
  split; [reflexivity|split; [|split]].
  - unfold NtIoInputBuffer.read, throw_spec_NtIoException.
    destruct (Z.ltb_spec (NtIoInputBuffer.size inp) 0); [lia|].
    rewrite memcpy_in_range;
      [ | lia | lia | pose proof (len_nonneg dst); lia
        | apply len_nonneg ].
    rewrite Z.sub_0_r, to_size_t_small by exact Hsize.
    destruct inp as [sz [blk off]]. unfold advance. simpl.
    rewrite Z.add_0_r. reflexivity.
  - unfold NtIoFileStream.read, throw_spec_NtIoException.
    destruct w; reflexivity.
  - unfold NtIoFileStream.write, throw_spec_NtIoException.
    destruct w; reflexivity.
Qed.

(** C9 on a fresh output buffer, a five-byte input buffer and a descriptor
    with one pending result. *)
Lemma zero_size_requests_are_no_ops_witness :
  let inp :=
    NtIoInputBuffer.new {| block := [x01; x02; x03; x04; x05]; offset := 0 |} 5
  in
  let w := [ {| NtIoFileStream.returned := 4;
                NtIoFileStream.errno_after := 0 |} ] in
  NtIoOutputBuffer.write (fun _ => true) [] 0 (NtIoOutputBuffer.new 5)
  = Return tt (NtIoOutputBuffer.new 5)
  /\ NtIoInputBuffer.read 0 (inp, []) = Return tt (inp, [])
  /\ NtIoFileStream.read msvcrt_errno {| NtIoFileStream.fd := 3 |} 0 w
     = Return tt w
  /\ NtIoFileStream.write msvcrt_errno {| NtIoFileStream.fd := 3 |} 0 w
     = Return tt w.
Proof.
  exact (zero_size_requests_are_no_ops (fun _ => true) msvcrt_errno
           (NtIoOutputBuffer.new 5) []
           (NtIoInputBuffer.new
              {| block := [x01; x02; x03; x04; x05]; offset := 0 |} 5) []
           {| NtIoFileStream.fd := 3 |}
           [ {| NtIoFileStream.returned := 4;
                NtIoFileStream.errno_after := 0 |} ]
           ltac:(vm_compute; split; discriminate)).
Defined.

(** ** NtIoFileStream::read *)

Section FileRead.

Variable E : errno_values.

Lemma read_loop_complete (size readSize : Z) (w : NtIoFileStream.world) :
  size <= readSize -> NtIoFileStream.read_loop E size readSize w = Return tt w.
Proof.
  intros H. destruct w; simpl;
    destruct (Z.ltb_spec readSize size); try lia; reflexivity.
Qed.

Lemma read_loop_waits (size readSize : Z) :
  readSize < size -> NtIoFileStream.read_loop E size readSize [] = Blocked.
Proof.
  intros H. simpl. destruct (Z.ltb_spec readSize size); [reflexivity|lia].
Qed.

Lemma read_loop_positive (size readSize : Z) (r : NtIoFileStream.attempt)
      (w : NtIoFileStream.world) :
  readSize < size -> 0 < NtIoFileStream.returned r ->
  NtIoFileStream.read_loop E size readSize (r :: w)
  = NtIoFileStream.read_loop E size
      (to_size_t (readSize + NtIoFileStream.returned r)) w.
Proof.
  intros H Hr. simpl.
  destruct (Z.ltb_spec readSize size); [|lia].
  destruct (Z.ltb_spec 0 (NtIoFileStream.returned r)); [reflexivity|lia].
Qed.

Lemma read_loop_end_of_stream (size readSize : Z)
      (r : NtIoFileStream.attempt) (w : NtIoFileStream.world) :
  readSize < size -> NtIoFileStream.returned r = 0 ->
  NtIoFileStream.read_loop E size readSize (r :: w)
  = throw eioStreamClosed w.
Proof.
  intros H Hr. simpl. rewrite Hr.
  destruct (Z.ltb_spec readSize size); [reflexivity|lia].
Qed.

Lemma errno_check_raises (S : Type) (errno : Z) (s : S) :
  exists kind, NtIoFileStreamErrnoCheck E errno s = throw kind s.
Proof.
  unfold NtIoFileStreamErrnoCheck, throw_spec_NtIoException, throw.
  eqb_cases; eexists; reflexivity.
Qed.

Lemma read_loop_failure (size readSize : Z) (r : NtIoFileStream.attempt)
      (w : NtIoFileStream.world) :
  readSize < size -> NtIoFileStream.returned r < 0 ->
  exists kind,
    NtIoFileStreamErrnoCheck E (NtIoFileStream.errno_after r) tt
    = throw kind tt
    /\ NtIoFileStream.read_loop E size readSize (r :: w) = throw kind w.
Proof.
  intros H Hr.
  destruct (errno_check_raises unit (NtIoFileStream.errno_after r) tt)
    as [kind Hkind].
  exists kind. split; [exact Hkind|]. simpl.
  destruct (Z.ltb_spec readSize size); [|lia].
  destruct (Z.ltb_spec 0 (NtIoFileStream.returned r)); [lia|].
  destruct (Z.eqb_spec (NtIoFileStream.returned r) 0); [lia|].
  rewrite Hkind. reflexivity.
Qed.

Lemma transferred_positive (done : list NtIoFileStream.attempt) :
  Forall (fun a => 0 < NtIoFileStream.returned a) done ->
  0 <= NtIoFileStream.transferred done.
Proof.
  induction 1 as [|a l Ha _ IH]; simpl; lia.
Qed.

(** Attempts that return positive counts short of the request are consumed
    one after the other, the counts adding up in [readSize]. *)
Lemma read_loop_partial (size : Z) (done : list NtIoFileStream.attempt) :
  size <= SIZE_MAX ->
  Forall (fun a => 0 < NtIoFileStream.returned a) done ->
  forall (readSize : Z) (w : NtIoFileStream.world),
    0 <= readSize ->
    readSize + NtIoFileStream.transferred done < size ->
    NtIoFileStream.read_loop E size readSize (done ++ w)
    = NtIoFileStream.read_loop E size
        (readSize + NtIoFileStream.transferred done) w.
Proof.
  intros Hsize Hpos.
  induction Hpos as [|a l Ha Hl IH]; intros readSize w H0 Hlt.
  - simpl. rewrite Z.add_0_r. reflexivity.
  - pose proof (transferred_positive l Hl) as Hl0.
    cbn [NtIoFileStream.transferred fold_right] in *.
    fold (NtIoFileStream.transferred l) in *.
    rewrite <- app_comm_cons, read_loop_positive by lia.
    rewrite to_size_t_small by lia.
    rewrite IH by lia. f_equal. lia.
Qed.

(** A loop that returns consumed attempts with positive counts only, and
    their counts reach the request. *)
Lemma read_loop_return_inv (size : Z) (w : NtIoFileStream.world) :
  size <= SIZE_MAX ->
  forall (readSize : Z) (w' : NtIoFileStream.world),
    0 <= readSize ->
    NtIoFileStream.read_loop E size readSize w = Return tt w' ->
    exists used,
      w = used ++ w'
      /\ Forall (fun a => 0 < NtIoFileStream.returned a) used
      /\ size <= readSize + NtIoFileStream.transferred used
      /\ (readSize <= size ->
          NtIoFileStream.within_count size readSize used = true ->
          readSize + NtIoFileStream.transferred used = size).
Proof.
  intros Hs.
  induction w as [|r w IH]; intros readSize w' H0 Hret.
  - simpl in Hret. destruct (Z.ltb_spec readSize size); [discriminate|].
    injection Hret as <-. exists []. simpl. repeat split; try constructor; lia.
  - simpl in Hret. destruct (Z.ltb_spec readSize size) as [Hlt|Hge].
    + destruct (Z.ltb_spec 0 (NtIoFileStream.returned r)) as [Hr|Hr].
      * pose proof (to_size_t_range (readSize + NtIoFileStream.returned r))
          as Hrange.
        apply IH in Hret as (used & -> & Hpos & Hreach & Hexact); [|lia].
        exists (r :: used). simpl. repeat split.
        -- constructor; assumption.
        -- assert (to_size_t (readSize + NtIoFileStream.returned r)
                   <= readSize + NtIoFileStream.returned r) as Hle.
           { unfold to_size_t. apply Z.mod_le; [lia|].
             apply Z.pow_pos_nonneg; unfold SIZE_BITS; lia. }
           fold (NtIoFileStream.transferred used). lia.
        -- intros _ Hwithin. apply andb_prop in Hwithin as [Hcount Hwithin].
           apply Z.leb_le in Hcount.
           rewrite to_size_t_small in * by lia.
           fold (NtIoFileStream.transferred used).
           specialize (Hexact ltac:(lia) Hwithin). lia.
      * destruct (NtIoFileStream.returned r =? 0); [discriminate|].
        destruct (errno_check_raises unit (NtIoFileStream.errno_after r) tt)
          as [kind Hkind].
        rewrite Hkind in Hret. discriminate.
    + injection Hret as <-. exists []. simpl.
      repeat split; try constructor; lia.
Qed.

End FileRead.

(** C1. [read(buffer, size)] against any sequence of results of [::read].
    Let [done] be attempts that returned positive counts adding up to less
    than [size], and [r] the attempt after them. After [done] the loop is
    still asking. If [r] returns a positive count that leaves the request
    incomplete, the loop goes on with [readSize] advanced by that count; if
    the count completes the request, the call returns. If [r] returns 0 the
    call raises StreamClosed at once, whatever [done] transferred. If [r]
    returns a negative value the call raises the kind the errno check gives
    for the errno of [r]. A call that returns has consumed only positive
    counts that add up to at least [size], and to exactly [size] when every
    attempt kept to the count it was asked for. *)
Theorem file_read_transfers_size_or_raises :
  forall (E : errno_values) (file : NtIoFileStream.t) (size : Z)
         (done : list NtIoFileStream.attempt) (r : NtIoFileStream.attempt)
         (rest : NtIoFileStream.world),
    0 <= size <= SIZE_MAX ->
    Forall (fun a => 0 < NtIoFileStream.returned a) done ->
    NtIoFileStream.transferred done < size ->
    let n := NtIoFileStream.returned r in
    NtIoFileStream.read E file size done = Blocked
    /\ (0 < n -> NtIoFileStream.transferred done + n < size ->
        NtIoFileStream.read E file size (done ++ r :: rest)
        = throw_spec_NtIoException
            (NtIoFileStream.read_loop E size
               (NtIoFileStream.transferred done + n)) rest)
    /\ (0 < n -> NtIoFileStream.transferred done + n = size ->
        NtIoFileStream.read E file size (done ++ r :: rest) = Return tt rest)
    /\ (n = 0 ->
        NtIoFileStream.read E file size (done ++ r :: rest)
        = throw eioStreamClosed rest)
    /\ (n < 0 ->
        exists kind,
          NtIoFileStreamErrnoCheck E (NtIoFileStream.errno_after r) tt
          = throw kind tt
          /\ NtIoFileStream.read E file size (done ++ r :: rest)
             = throw kind rest)
    /\ (forall w w',
           NtIoFileStream.read E file size w = Return tt w' ->
           exists used,
             w = used ++ w'
             /\ Forall (fun a => 0 < NtIoFileStream.returned a) used
             /\ size <= NtIoFileStream.transferred used
             /\ (NtIoFileStream.within_count size 0 used = true ->
                 NtIoFileStream.transferred used = size)).
Proof.
  intros E file size done r rest Hsize Hpos Hshort n.
  pose proof (transferred_positive done Hpos) as Hdone.
  assert (forall w,
             NtIoFileStream.read E file size (done ++ w)
             = throw_spec_NtIoException
                 (NtIoFileStream.read_loop E size
                    (NtIoFileStream.transferred done)) w) as Hskip.
  { intros w. unfold NtIoFileStream.read, throw_spec_NtIoException.
    rewrite read_loop_partial; [reflexivity | lia | exact Hpos | lia | lia]. }
  split; [|split; [|split; [|split; [|split]]]].
  - rewrite <- (app_nil_r done), Hskip. unfold throw_spec_NtIoException.
    rewrite read_loop_waits by lia. reflexivity.
  - intros Hn Hmore. rewrite Hskip. unfold throw_spec_NtIoException.
    rewrite read_loop_positive, to_size_t_small by (fold n; lia).
    reflexivity.
  - intros Hn Hall. rewrite Hskip. unfold throw_spec_NtIoException.
    rewrite read_loop_positive, to_size_t_small by (fold n; lia).
    rewrite read_loop_complete by (fold n; lia). reflexivity.
  - intros Hn. rewrite Hskip. unfold throw_spec_NtIoException.
    rewrite read_loop_end_of_stream by (fold n; lia). reflexivity.
  - intros Hn.
    destruct (read_loop_failure E size (NtIoFileStream.transferred done) r rest)
      as (kind & Hkind & Hloop); [lia | exact Hn |].
    exists kind. split; [exact Hkind|].
    rewrite Hskip. unfold throw_spec_NtIoException. rewrite Hloop. reflexivity.
  - intros w w' Hret. unfold NtIoFileStream.read, throw_spec_NtIoException in Hret.
    destruct (NtIoFileStream.read_loop E size 0 w) as [[] s|x s| | |] eqn:Hloop;
      try discriminate; [|destruct x; discriminate].
    injection Hret as ->.
    apply read_loop_return_inv in Hloop as (used & Hw & Hu & Hreach & Hexact);
      [|lia|lia].
    exists used. repeat split; try assumption; try lia.
    intros Hwithin. specialize (Hexact ltac:(lia) Hwithin). lia.
Qed.

(** C1 on a request of 10 bytes: 4 bytes arrive, then [::read] returns 0. *)
Lemma file_read_transfers_size_or_raises_witness :
  NtIoFileStream.read msvcrt_errno {| NtIoFileStream.fd := 3 |} 10
    [ {| NtIoFileStream.returned := 4; NtIoFileStream.errno_after := 0 |};
      {| NtIoFileStream.returned := 0; NtIoFileStream.errno_after := 0 |};
      {| NtIoFileStream.returned := 6; NtIoFileStream.errno_after := 0 |} ]
  = throw eioStreamClosed
      [ {| NtIoFileStream.returned := 6; NtIoFileStream.errno_after := 0 |} ].
Proof.
  exact (proj1 (proj2 (proj2 (proj2
           (file_read_transfers_size_or_raises msvcrt_errno
              {| NtIoFileStream.fd := 3 |} 10
              [ {| NtIoFileStream.returned := 4;
                   NtIoFileStream.errno_after := 0 |} ]
              {| NtIoFileStream.returned := 0;
                 NtIoFileStream.errno_after := 0 |}
              [ {| NtIoFileStream.returned := 6;
                   NtIoFileStream.errno_after := 0 |} ]
              ltac:(vm_compute; split; discriminate)
              ltac:(repeat constructor)
              ltac:(vm_compute; reflexivity)))))
           eq_refl).
Defined.

(** ** NtIoFileStream::write *)

Section FileWrite.

Variable E : errno_values.

Lemma write_loop_complete (size writeSize : Z) (w : NtIoFileStream.world) :
  size <= writeSize ->
  NtIoFileStream.write_loop E size writeSize w = Return tt w.
Proof.
  intros H. destruct w; simpl;
    destruct (Z.ltb_spec writeSize size); try lia; reflexivity.
Qed.

Lemma write_loop_waits (size writeSize : Z) :
  writeSize < size -> NtIoFileStream.write_loop E size writeSize [] = Blocked.
Proof.
  intros H. simpl. destruct (Z.ltb_spec writeSize size); [reflexivity|lia].
Qed.

Lemma write_loop_positive (size writeSize : Z) (r : NtIoFileStream.attempt)
      (w : NtIoFileStream.world) :
  writeSize < size -> 0 < NtIoFileStream.returned r ->
  NtIoFileStream.write_loop E size writeSize (r :: w)
  = NtIoFileStream.write_loop E size
      (to_size_t (writeSize + NtIoFileStream.returned r)) w.
Proof.
  intros H Hr. simpl.
  destruct (Z.ltb_spec writeSize size); [|lia].
  destruct (Z.ltb_spec 0 (NtIoFileStream.returned r)); [reflexivity|lia].
Qed.

(** In the write direction a result of zero goes to the errno check like a
    negative one. *)
Lemma write_loop_failure (size writeSize : Z) (r : NtIoFileStream.attempt)
      (w : NtIoFileStream.world) :
  writeSize < size -> NtIoFileStream.returned r <= 0 ->
  exists kind,
    NtIoFileStreamErrnoCheck E (NtIoFileStream.errno_after r) tt
    = throw kind tt
    /\ NtIoFileStream.write_loop E size writeSize (r :: w) = throw kind w.
Proof.
  intros H Hr.
  destruct (errno_check_raises E unit (NtIoFileStream.errno_after r) tt)
    as [kind Hkind].
  exists kind. split; [exact Hkind|]. simpl.
  destruct (Z.ltb_spec writeSize size); [|lia].
  destruct (Z.ltb_spec 0 (NtIoFileStream.returned r)); [lia|].
  rewrite Hkind. reflexivity.
Qed.

Lemma write_loop_partial (size : Z) (done : list NtIoFileStream.attempt) :
  size <= SIZE_MAX ->
  Forall (fun a => 0 < NtIoFileStream.returned a) done ->
  forall (writeSize : Z) (w : NtIoFileStream.world),
    0 <= writeSize ->
    writeSize + NtIoFileStream.transferred done < size ->
    NtIoFileStream.write_loop E size writeSize (done ++ w)
    = NtIoFileStream.write_loop E size
        (writeSize + NtIoFileStream.transferred done) w.
Proof.
  intros Hsize Hpos.
  induction Hpos as [|a l Ha Hl IH]; intros writeSize w H0 Hlt.
  - simpl. rewrite Z.add_0_r. reflexivity.
  - pose proof (transferred_positive l Hl) as Hl0.
    cbn [NtIoFileStream.transferred fold_right] in *.
    fold (NtIoFileStream.transferred l) in *.
    rewrite <- app_comm_cons, write_loop_positive by lia.
    rewrite to_size_t_small by lia.
    rewrite IH by lia. f_equal. lia.
Qed.

Lemma write_loop_return_inv (size : Z) (w : NtIoFileStream.world) :
  size <= SIZE_MAX ->
  forall (writeSize : Z) (w' : NtIoFileStream.world),
    0 <= writeSize ->
    NtIoFileStream.write_loop E size writeSize w = Return tt w' ->
    exists used,
      w = used ++ w'
      /\ Forall (fun a => 0 < NtIoFileStream.returned a) used
      /\ size <= writeSize + NtIoFileStream.transferred used
      /\ (writeSize <= size ->
          NtIoFileStream.within_count size writeSize used = true ->
          writeSize + NtIoFileStream.transferred used = size).
Proof.
  intros Hs.
  induction w as [|r w IH]; intros writeSize w' H0 Hret.
  - simpl in Hret. destruct (Z.ltb_spec writeSize size); [discriminate|].
    injection Hret as <-. exists []. simpl. repeat split; try constructor; lia.
  - simpl in Hret. destruct (Z.ltb_spec writeSize size) as [Hlt|Hge].
    + destruct (Z.ltb_spec 0 (NtIoFileStream.returned r)) as [Hr|Hr].
      * pose proof (to_size_t_range (writeSize + NtIoFileStream.returned r))
          as Hrange.
        apply IH in Hret as (used & -> & Hpos & Hreach & Hexact); [|lia].
        exists (r :: used). simpl. repeat split.
        -- constructor; assumption.
        -- assert (to_size_t (writeSize + NtIoFileStream.returned r)
                   <= writeSize + NtIoFileStream.returned r) as Hle.
           { unfold to_size_t. apply Z.mod_le; [lia|].
             apply Z.pow_pos_nonneg; unfold SIZE_BITS; lia. }
           fold (NtIoFileStream.transferred used). lia.
        -- intros _ Hwithin. apply andb_prop in Hwithin as [Hcount Hwithin].
           apply Z.leb_le in Hcount.
           rewrite to_size_t_small in * by lia.
           fold (NtIoFileStream.transferred used).
           specialize (Hexact ltac:(lia) Hwithin). lia.
      * destruct (errno_check_raises E unit (NtIoFileStream.errno_after r) tt)
          as [kind Hkind].
        rewrite Hkind in Hret. discriminate.
    + injection Hret as <-. exists []. simpl.
      repeat split; try constructor; lia.
Qed.

End FileWrite.

(** An errno value that is none of the six classified ones is an invalid
    handle. *)
Lemma errno_check_default (E : errno_values) (S : Type) (errno : Z) (s : S) :
  ~ In errno [EPERM E; EIO E; EPIPE E; EAGAIN E; EWOULDBLOCK E; EINTR E] ->
  NtIoFileStreamErrnoCheck E errno s = throw eioInvalidHandle s.
Proof.
  intros Hnot. unfold NtIoFileStreamErrnoCheck, throw_spec_NtIoException, throw.
  simpl in Hnot.
  eqb_cases; try reflexivity; exfalso; apply Hnot; subst; tauto.
Qed.

(** X1. [write(buffer, size)] against any sequence of results of [::write].
    After attempts with positive counts adding up to less than [size] the
    loop is still asking; a positive count that leaves the request incomplete
    advances [writeSize] and the loop goes on; a count that completes it makes
    the call return. A result of zero is not end of stream here: like a
    negative one it raises the kind the errno check gives for the errno of
    that attempt, which is InvalidHandle when errno holds none of the six
    classified values. A call that returns consumed only positive counts
    adding up to at least [size], exactly [size] when every attempt kept to
    the count it was asked for. *)
Theorem file_write_transfers_size_or_raises :
  forall (E : errno_values) (file : NtIoFileStream.t) (size : Z)
         (done : list NtIoFileStream.attempt) (r : NtIoFileStream.attempt)
         (rest : NtIoFileStream.world),
    0 <= size <= SIZE_MAX ->
    Forall (fun a => 0 < NtIoFileStream.returned a) done ->
    NtIoFileStream.transferred done < size ->
    let n := NtIoFileStream.returned r in
    NtIoFileStream.write E file size done = Blocked
    /\ (0 < n -> NtIoFileStream.transferred done + n < size ->
        NtIoFileStream.write E file size (done ++ r :: rest)
        = throw_spec_NtIoException
            (NtIoFileStream.write_loop E size
               (NtIoFileStream.transferred done + n)) rest)
    /\ (0 < n -> NtIoFileStream.transferred done + n = size ->
        NtIoFileStream.write E file size (done ++ r :: rest) = Return tt rest)
    /\ (n <= 0 ->
        exists kind,
          NtIoFileStreamErrnoCheck E (NtIoFileStream.errno_after r) tt
          = throw kind tt
          /\ NtIoFileStream.write E file size (done ++ r :: rest)
             = throw kind rest)
    /\ (n <= 0 ->
        ~ In (NtIoFileStream.errno_after r)
            [EPERM E; EIO E; EPIPE E; EAGAIN E; EWOULDBLOCK E; EINTR E] ->
        NtIoFileStream.write E file size (done ++ r :: rest)
        = throw eioInvalidHandle rest)
    /\ (forall w w',
           NtIoFileStream.write E file size w = Return tt w' ->
           exists used,
             w = used ++ w'
             /\ Forall (fun a => 0 < NtIoFileStream.returned a) used
             /\ size <= NtIoFileStream.transferred used
             /\ (NtIoFileStream.within_count size 0 used = true ->
                 NtIoFileStream.transferred used = size)).
Proof.
  intros E file size done r rest Hsize Hpos Hshort n.
  pose proof (transferred_positive done Hpos) as Hdone.
  assert (forall w,
             NtIoFileStream.write E file size (done ++ w)
             = throw_spec_NtIoException
                 (NtIoFileStream.write_loop E size
                    (NtIoFileStream.transferred done)) w) as Hskip.
  { intros w. unfold NtIoFileStream.write, throw_spec_NtIoException.
    rewrite write_loop_partial; [reflexivity | lia | exact Hpos | lia | lia]. }
  assert (n <= 0 ->
          exists kind,
            NtIoFileStreamErrnoCheck E (NtIoFileStream.errno_after r) tt
            = throw kind tt
            /\ NtIoFileStream.write E file size (done ++ r :: rest)
               = throw kind rest) as Hfail.
  { intros Hn.
    destruct (write_loop_failure E size (NtIoFileStream.transferred done) r rest)
      as (kind & Hkind & Hloop); [lia | exact Hn |].
    exists kind. split; [exact Hkind|].
    rewrite Hskip. unfold throw_spec_NtIoException. rewrite Hloop. reflexivity. }
  split; [|split; [|split; [|split; [exact Hfail|split]]]].
  - rewrite <- (app_nil_r done), Hskip. unfold throw_spec_NtIoException.
    rewrite write_loop_waits by lia. reflexivity.
  - intros Hn Hmore. rewrite Hskip. unfold throw_spec_NtIoException.
    rewrite write_loop_positive, to_size_t_small by (fold n; lia).
    reflexivity.
  - intros Hn Hall. rewrite Hskip. unfold throw_spec_NtIoException.
    rewrite write_loop_positive, to_size_t_small by (fold n; lia).
    rewrite write_loop_complete by (fold n; lia). reflexivity.
  - intros Hn Hnot. destruct (Hfail Hn) as (kind & Hkind & Hw).
    rewrite Hw. rewrite errno_check_default in Hkind by exact Hnot.
    unfold throw in *. injection Hkind as <-. reflexivity.
  - intros w w' Hret.
    unfold NtIoFileStream.write, throw_spec_NtIoException in Hret.
    destruct (NtIoFileStream.write_loop E size 0 w) as [[] s|x s| | |] eqn:Hloop;
      try discriminate; [|destruct x; discriminate].
    injection Hret as ->.
    apply write_loop_return_inv in Hloop as (used & Hw & Hu & Hreach & Hexact);
      [|lia|lia].
    exists used. repeat split; try assumption; try lia.
    intros Hwithin. specialize (Hexact ltac:(lia) Hwithin). lia.
Qed.

(** X1 on a request of 10 bytes: 4 bytes are accepted, then [::write]
    returns 0 with errno 0. *)
Lemma file_write_transfers_size_or_raises_witness :
  NtIoFileStream.write msvcrt_errno {| NtIoFileStream.fd := 3 |} 10
    [ {| NtIoFileStream.returned := 4; NtIoFileStream.errno_after := 0 |};
      {| NtIoFileStream.returned := 0; NtIoFileStream.errno_after := 0 |};
      {| NtIoFileStream.returned := 6; NtIoFileStream.errno_after := 0 |} ]
  = throw eioInvalidHandle
      [ {| NtIoFileStream.returned := 6; NtIoFileStream.errno_after := 0 |} ].
Proof.
  refine (proj1 (proj2 (proj2 (proj2 (proj2
           (file_write_transfers_size_or_raises msvcrt_errno
              {| NtIoFileStream.fd := 3 |} 10
              [ {| NtIoFileStream.returned := 4;
                   NtIoFileStream.errno_after := 0 |} ]
              {| NtIoFileStream.returned := 0;
                 NtIoFileStream.errno_after := 0 |}
              [ {| NtIoFileStream.returned := 6;
                   NtIoFileStream.errno_after := 0 |} ]
              ltac:(vm_compute; split; discriminate)
              ltac:(repeat constructor)
              ltac:(vm_compute; reflexivity))))))
           _ _).
  - vm_compute. discriminate.
  - simpl. intros H. repeat destruct H as [H|H]; try discriminate H; exact H.
Defined.

(** ** What a call on a file stream can come to *)

Lemma errno_check_kind (E : errno_values) (S : Type) (errno : Z) (s : S) :
  exists kind,
    NtIoFileStreamErrnoCheck E errno s = throw kind s
    /\ In kind file_stream_kinds.
Proof.
  unfold NtIoFileStreamErrnoCheck, throw_spec_NtIoException, throw,
    file_stream_kinds.
  eqb_cases; eexists; (split; [reflexivity | simpl; tauto]).
Qed.

Lemma consumed_cons (r : NtIoFileStream.attempt)
      (w used w' : NtIoFileStream.world) :
  consumed w used w' -> consumed (r :: w) (r :: used) w'.
Proof. unfold consumed. intros ->. reflexivity. Qed.

Lemma read_loop_outcomes (E : errno_values) (size : Z)
      (w : NtIoFileStream.world) :
  forall readSize : Z,
    (exists used w',
        consumed w used w'
        /\ NtIoFileStream.read_loop E size readSize w = Return tt w')
    \/ (exists used w' kind,
           consumed w used w' /\ used <> []
           /\ In kind file_stream_kinds
           /\ NtIoFileStream.read_loop E size readSize w = throw kind w')
    \/ (NtIoFileStream.read_loop E size readSize w = Blocked
        /\ Forall (fun a => 0 < NtIoFileStream.returned a) w).
Proof.
  induction w as [|r w IH]; intros readSize; simpl.
  - destruct (readSize <? size).
    + right. right. split; [reflexivity|constructor].
    + left. exists [], []. split; reflexivity.
  - destruct (readSize <? size).
    + destruct (Z.ltb_spec 0 (NtIoFileStream.returned r)) as [Hr|Hr].
      * destruct (IH (to_size_t (readSize + NtIoFileStream.returned r)))
          as [(used & w' & Hc & Hw)
             |[(used & w' & kind & Hc & _ & Hk & Hw)|[Hw Hall]]].
        -- left. exists (r :: used), w'. split; [apply consumed_cons|]; assumption.
        -- right. left. exists (r :: used), w', kind.
           repeat split; try assumption; [apply consumed_cons; exact Hc|].
           discriminate.
        -- right. right. split; [exact Hw|]. constructor; assumption.
      * right. left. destruct (NtIoFileStream.returned r =? 0).
        -- exists [r], w, eioStreamClosed.
           repeat split; [discriminate | simpl; tauto].
        -- destruct (errno_check_kind E unit (NtIoFileStream.errno_after r) tt)
             as (kind & Hkind & Hin).
           exists [r], w, kind. rewrite Hkind.
           repeat split; [discriminate | exact Hin].
    + left. exists [], (r :: w). split; reflexivity.
Qed.

Lemma write_loop_outcomes (E : errno_values) (size : Z)
      (w : NtIoFileStream.world) :
  forall writeSize : Z,
    (exists used w',
        consumed w used w'
        /\ NtIoFileStream.write_loop E size writeSize w = Return tt w')
    \/ (exists used w' kind,
           consumed w used w' /\ used <> []
           /\ In kind file_stream_kinds
           /\ NtIoFileStream.write_loop E size writeSize w = throw kind w')
    \/ (NtIoFileStream.write_loop E size writeSize w = Blocked
        /\ Forall (fun a => 0 < NtIoFileStream.returned a) w).
Proof.
  induction w as [|r w IH]; intros writeSize; simpl.
  - destruct (writeSize <? size).
    + right. right. split; [reflexivity|constructor].
    + left. exists [], []. split; reflexivity.
  - destruct (writeSize <? size).
    + destruct (Z.ltb_spec 0 (NtIoFileStream.returned r)) as [Hr|Hr].
      * destruct (IH (to_size_t (writeSize + NtIoFileStream.returned r)))
          as [(used & w' & Hc & Hw)
             |[(used & w' & kind & Hc & _ & Hk & Hw)|[Hw Hall]]].
        -- left. exists (r :: used), w'. split; [apply consumed_cons|]; assumption.
        -- right. left. exists (r :: used), w', kind.
           repeat split; try assumption; [apply consumed_cons; exact Hc|].
           discriminate.
        -- right. right. split; [exact Hw|]. constructor; assumption.
      * right. left.
        destruct (errno_check_kind E unit (NtIoFileStream.errno_after r) tt)
          as (kind & Hkind & Hin).
        exists [r], w, kind. rewrite Hkind.
        repeat split; [discriminate | exact Hin].
    + left. exists [], (r :: w). split; reflexivity.
Qed.

Lemma throw_spec_of_loop (loop : M NtIoFileStream.world unit)
      (w : NtIoFileStream.world) :
  (exists used w', consumed w used w' /\ loop w = Return tt w')
  \/ (exists used w' kind,
         consumed w used w' /\ used <> [] /\ In kind file_stream_kinds
         /\ loop w = throw kind w')
  \/ (loop w = Blocked
      /\ Forall (fun a => 0 < NtIoFileStream.returned a) w) ->
  (exists used w',
      consumed w used w' /\ throw_spec_NtIoException loop w = Return tt w')
  \/ (exists used w' kind,
         consumed w used w' /\ used <> [] /\ In kind file_stream_kinds
         /\ throw_spec_NtIoException loop w = throw kind w')
  \/ (throw_spec_NtIoException loop w = Blocked
      /\ Forall (fun a => 0 < NtIoFileStream.returned a) w).
Proof.
  unfold throw_spec_NtIoException, throw.
  intros [(used & w' & Hc & Hw)
         |[(used & w' & kind & Hc & Hne & Hk & Hw)|[Hw Hall]]]; rewrite Hw.
  - left. eauto.
  - right. left. exists used, w', kind. auto.
  - right. right. auto.
Qed.

(** X2. Whatever the descriptor answers, a [read] or a [write] of a file
    stream comes to one of three ends: it returns, it raises one of
    InvalidHandle, Permission, StreamClosed, NonBlocking and Interrupted
    after at least one attempt, or it is still waiting and every attempt so
    far returned a positive count. It never raises AllocationFailure,
    Malformed or a foreign exception, never terminates the program, and the
    results it leaves for later calls are the ones it did not consume, in
    order. *)
Theorem file_stream_outcomes :
  forall (E : errno_values) (file : NtIoFileStream.t) (size : Z)
         (w : NtIoFileStream.world),
    ((exists used w',
         consumed w used w'
         /\ NtIoFileStream.read E file size w = Return tt w')
     \/ (exists used w' kind,
            consumed w used w' /\ used <> []
            /\ In kind file_stream_kinds
            /\ NtIoFileStream.read E file size w = throw kind w')
     \/ (NtIoFileStream.read E file size w = Blocked
         /\ Forall (fun a => 0 < NtIoFileStream.returned a) w))
    /\ ((exists used w',
            consumed w used w'
            /\ NtIoFileStream.write E file size w = Return tt w')
        \/ (exists used w' kind,
               consumed w used w' /\ used <> []
               /\ In kind file_stream_kinds
               /\ NtIoFileStream.write E file size w = throw kind w')
        \/ (NtIoFileStream.write E file size w = Blocked
            /\ Forall (fun a => 0 < NtIoFileStream.returned a) w)).
Proof.
  intros E file size w. unfold NtIoFileStream.read, NtIoFileStream.write.
  split; apply throw_spec_of_loop.
  - apply read_loop_outcomes.
  - apply write_loop_outcomes.
Qed.

(** ** The number of attempts of a call on a file stream *)


Lemma attempts_nonneg (w : NtIoFileStream.world) : 0 <= attempts w.
Proof. unfold attempts. lia. Qed.







(** ** The region of an input buffer over its reads *)

Lemma readable_advance (p : pointer) (n : Z) :
  0 <= offset p -> 0 <= n ->
  readable (advance p n) = skipn (Z.to_nat n) (readable p).
Proof.
  intros Hp Hn. unfold readable, advance. simpl.
  destruct (Z.leb_spec 0 (offset p + n)); [|lia].
  destruct (Z.leb_spec 0 (offset p)); [|lia].
  rewrite skipn_skipn. f_equal. lia.
Qed.

Lemma advance_advance (p : pointer) (a b : Z) :
  advance (advance p a) b = advance p (a + b).
Proof. unfold advance. simpl. f_equal. lia. Qed.

Lemma skipn_len (c : list byte) : skipn (Z.to_nat (len c)) c = [].
Proof. apply skipn_all2. unfold len. lia. Qed.

(** X4. A read on a valid input buffer with a non-negative size either
    returns or raises StreamClosed, or is undefined when the destination is
    too short. When it returns the buffer is valid again, points into the
    same block, the end of the region (pointer plus remaining length) is
    where it was, the remaining length did not grow and the destination kept
    its length. When it raises, the request exceeded the remaining length
    and the object and the destination are untouched. *)
Theorem read_keeps_region_end :
  forall (this : NtIoInputBuffer.t) (dst : list byte) (requestSize : Z),
    NtIoInputBuffer.valid this ->
    0 <= requestSize ->
    (forall this' dst',
        NtIoInputBuffer.read requestSize (this, dst) = Return tt (this', dst') ->
        NtIoInputBuffer.valid this'
        /\ block (NtIoInputBuffer.buffer this')
           = block (NtIoInputBuffer.buffer this)
        /\ offset (NtIoInputBuffer.buffer this') + NtIoInputBuffer.size this'
           = offset (NtIoInputBuffer.buffer this) + NtIoInputBuffer.size this
        /\ NtIoInputBuffer.size this' <= NtIoInputBuffer.size this
        /\ len dst' = len dst)
    /\ (forall x state',
           NtIoInputBuffer.read requestSize (this, dst) = Raise x state' ->
           x = NtIo {| ioErrorCode := eioStreamClosed |}
           /\ state' = (this, dst)
           /\ NtIoInputBuffer.size this < requestSize)
    /\ NtIoInputBuffer.read requestSize (this, dst) <> Terminate
    /\ NtIoInputBuffer.read requestSize (this, dst) <> Blocked
    /\ (NtIoInputBuffer.read requestSize (this, dst) = Undefined <->
        requestSize <= NtIoInputBuffer.size this /\ len dst < requestSize).
Proof.
  intros this dst n Hvalid Hn. pose proof Hvalid as (Hoff & Hsz & Hreg).
  destruct (Z.lt_ge_cases (NtIoInputBuffer.size this) n) as [Hbig|Hfit].
  - rewrite read_closed by exact Hbig.
    split; [intros this' dst' H; discriminate H|].
    split; [intros x state' [= <- <-]; auto|].
    split; [discriminate|]. split; [discriminate|].
    split; [discriminate|lia].
  - destruct (Z.le_gt_cases n (len dst)) as [Hroom|Hshort].
    + rewrite read_served by (try assumption; lia).
      split.
      { intros this' dst' [= <- <-].
        assert (len (firstn (Z.to_nat n) (readable (NtIoInputBuffer.buffer this))
                       ++ skipn (Z.to_nat n) dst) = len dst) as Hlen.
        { rewrite len_app, len_firstn, len_readable by lia.
          unfold len in *. rewrite length_skipn. lia. }
        unfold NtIoInputBuffer.valid. simpl.
        repeat split; try lia; exact Hlen. }
      split; [intros x state' H; discriminate H|].
      split; [discriminate|]. split; [discriminate|].
      split; [discriminate|lia].
    + assert (NtIoInputBuffer.read n (this, dst) = Undefined) as Hub.
      { unfold NtIoInputBuffer.read, throw_spec_NtIoException.
        destruct (Z.ltb_spec (NtIoInputBuffer.size this) n); [lia|].
        unfold memcpy.
        destruct (Z.leb_spec (0 + n) (len dst)); [lia|].
        rewrite !andb_false_r. reflexivity. }
      rewrite Hub.
      split; [intros this' dst' H; discriminate H|].
      split; [intros x state' H; discriminate H|].
      split; [discriminate|]. split; [discriminate|].
      split; [intros _; lia|reflexivity].
Qed.

(** X4 on the region 1, 2, 3, 4, 5: the buffer a read of 2 leaves is
    valid. *)
Lemma read_keeps_region_end_witness :
  NtIoInputBuffer.valid
    {| NtIoInputBuffer.size := 3;
       NtIoInputBuffer.buffer :=
         {| block := [x01; x02; x03; x04; x05]; offset := 2 |} |}.
Proof.
  exact (proj1
           (proj1
              (read_keeps_region_end
                 (NtIoInputBuffer.new
                    {| block := [x01; x02; x03; x04; x05]; offset := 0 |} 5)
                 [x00; x00] 2
                 ltac:(vm_compute; repeat split; discriminate)
                 ltac:(lia))
              {| NtIoInputBuffer.size := 3;
                 NtIoInputBuffer.buffer :=
                   {| block := [x01; x02; x03; x04; x05]; offset := 2 |} |}
              [x01; x02] eq_refl)).
Defined.

(** ** Objects read one after the other *)

Lemma read_values_cons (t : list byte) (rest : list (list byte))
      (this : NtIoInputBuffer.t) :
  read_values (t :: rest) this =
  match NtIoInputBuffer.read (len t) (this, t) with
  | Return _ (this', t') =>
      match read_values rest this' with
      | Return ts this'' => Return (t' :: ts) this''
      | Raise x this'' => Raise x this''
      | Terminate => Terminate
      | Undefined => Undefined
      | Blocked => Blocked
      end
  | Raise x (this', _) => Raise x this'
  | Terminate => Terminate
  | Undefined => Undefined
  | Blocked => Blocked
  end.
Proof. reflexivity. Qed.

Lemma total_len_cons (t : list byte) (rest : list (list byte)) :
  total_len (t :: rest) = len t + total_len rest.
Proof. unfold total_len. simpl. apply len_app. Qed.

Lemma total_len_nonneg (objs : list (list byte)) : 0 <= total_len objs.
Proof. apply len_nonneg. Qed.

Lemma total_len_app (a b : list (list byte)) :
  total_len (a ++ b) = total_len a + total_len b.
Proof. unfold total_len. rewrite concat_app. apply len_app. Qed.

(** The state of an input buffer after [n] bytes were read. *)
Lemma read_step_valid (this : NtIoInputBuffer.t) (n : Z) :
  NtIoInputBuffer.valid this ->
  0 <= n <= NtIoInputBuffer.size this ->
  NtIoInputBuffer.valid
    {| NtIoInputBuffer.size := NtIoInputBuffer.size this - n;
       NtIoInputBuffer.buffer := advance (NtIoInputBuffer.buffer this) n |}.
Proof.
  intros (Hoff & Hsz & Hreg) Hn. unfold NtIoInputBuffer.valid. simpl.
  repeat split; lia.
Qed.

Lemma read_nothing_state (this : NtIoInputBuffer.t) :
  {| NtIoInputBuffer.size := NtIoInputBuffer.size this - 0;
     NtIoInputBuffer.buffer := advance (NtIoInputBuffer.buffer this) 0 |}
  = this.
Proof.
  destruct this as [sz [blk off]]. unfold advance. simpl.
  rewrite Z.sub_0_r, Z.add_0_r. reflexivity.
Qed.

Lemma read_values_served (objs : list (list byte)) :
  forall this : NtIoInputBuffer.t,
    NtIoInputBuffer.valid this ->
    total_len objs <= NtIoInputBuffer.size this ->
    read_values objs this
    = Return (pieces (readable (NtIoInputBuffer.buffer this)) objs)
        {| NtIoInputBuffer.size := NtIoInputBuffer.size this - total_len objs;
           NtIoInputBuffer.buffer :=
             advance (NtIoInputBuffer.buffer this) (total_len objs) |}.
Proof.
  induction objs as [|t rest IH]; intros this Hvalid Hfit.
  - simpl. unfold ret. change (total_len []) with 0.
    rewrite read_nothing_state. reflexivity.
  - rewrite total_len_cons in *.
    pose proof (len_nonneg t) as Ht.
    pose proof (total_len_nonneg rest) as Hrest.
    pose proof Hvalid as (Hoff & _ & _).
    rewrite read_values_cons, read_served by (try assumption; lia).
    rewrite skipn_len, app_nil_r.
    rewrite IH; [|apply read_step_valid; [assumption|lia]|simpl; lia].
    simpl. rewrite readable_advance, advance_advance by lia.
    f_equal. f_equal. lia.
Qed.

Lemma firstn_plus (a b : nat) (l : list byte) :
  firstn (a + b) l = firstn a l ++ firstn b (skipn a l).
Proof.
  revert l. induction a as [|a IH]; intros l; [reflexivity|].
  destruct l as [|x l]; simpl.
  - rewrite firstn_nil. reflexivity.
  - rewrite IH. reflexivity.
Qed.

Lemma pieces_concat (objs : list (list byte)) :
  forall src : list byte,
    concat (pieces src objs) = firstn (Z.to_nat (total_len objs)) src.
Proof.
  induction objs as [|t rest IH]; intros src.
  - reflexivity.
  - simpl. rewrite IH, total_len_cons.
    pose proof (len_nonneg t). pose proof (total_len_nonneg rest).
    rewrite Z2Nat.inj_add by lia. symmetry. apply firstn_plus.
Qed.

Lemma pieces_lengths (objs : list (list byte)) :
  forall src : list byte,
    total_len objs <= len src ->
    map len (pieces src objs) = map len objs.
Proof.
  induction objs as [|t rest IH]; intros src Hfit; [reflexivity|].
  rewrite total_len_cons in Hfit.
  pose proof (len_nonneg t). pose proof (total_len_nonneg rest).
  simpl. rewrite len_firstn by lia. f_equal; [lia|].
  apply IH. unfold len in *. rewrite length_skipn. lia.
Qed.

Lemma pieces_of_concat (vals : list (list byte)) :
  forall objs : list (list byte),
    map len objs = map len vals ->
    pieces (concat vals) objs = vals.
Proof.
  induction vals as [|v vals IH]; intros objs Hlen.
  - destruct objs; [reflexivity|discriminate].
  - destruct objs as [|t objs]; [discriminate|].
    simpl in Hlen. injection Hlen as Ht Hrest.
    simpl. rewrite Ht, firstn_len_app, skipn_len_app, IH by exact Hrest.
    reflexivity.
Qed.

Lemma same_lengths_total (objs vals : list (list byte)) :
  map len objs = map len vals -> total_len objs = total_len vals.
Proof.
  revert vals. induction objs as [|t objs IH]; intros vals Hlen.
  - destruct vals; [reflexivity|discriminate].
  - destruct vals as [|v vals]; [discriminate|].
    simpl in Hlen. injection Hlen as Ht Hrest.
    rewrite !total_len_cons, Ht, (IH vals Hrest). reflexivity.
Qed.

(** X5. Typed reads of objects whose sizes add up to at most the remaining
    length all return: the objects receive consecutive pieces of the region,
    each as long as the object, whose concatenation is the region's next
    bytes; the buffer ends where a single read of the total would have left
    it, which would have delivered the same bytes. *)
Theorem read_values_cut_the_region :
  forall (objs : list (list byte)) (this : NtIoInputBuffer.t),
    NtIoInputBuffer.valid this ->
    total_len objs <= NtIoInputBuffer.size this ->
    let region := readable (NtIoInputBuffer.buffer this) in
    let final :=
      {| NtIoInputBuffer.size := NtIoInputBuffer.size this - total_len objs;
         NtIoInputBuffer.buffer :=
           advance (NtIoInputBuffer.buffer this) (total_len objs) |} in
    read_values objs this = Return (pieces region objs) final
    /\ map len (pieces region objs) = map len objs
    /\ concat (pieces region objs)
       = firstn (Z.to_nat (total_len objs)) region
    /\ (forall dst,
           len dst = total_len objs ->
           NtIoInputBuffer.read (total_len objs) (this, dst)
           = Return tt (final, concat (pieces region objs))).
Proof.
  intros objs this Hvalid Hfit region final.
  pose proof Hvalid as (Hoff & Hsz & Hreg).
  pose proof (total_len_nonneg objs) as Htot.
  split; [apply read_values_served; assumption|].
  split; [apply pieces_lengths; unfold region;
          rewrite len_readable by exact Hoff; lia|].
  split; [apply pieces_concat|].
  intros dst Hdst.
  rewrite read_served by (try assumption; lia).
  rewrite pieces_concat.
  replace (skipn (Z.to_nat (total_len objs)) dst) with (@nil byte)
    by (rewrite <- Hdst; symmetry; apply skipn_len).
  rewrite app_nil_r. reflexivity.
Qed.

(** X5 on the region 1, 2, 3, 4, 5 read as an object of 2 bytes and one of
    3 bytes. *)
Lemma read_values_cut_the_region_witness :
  read_values [[x00; x00]; [x00; x00; x00]]
    (NtIoInputBuffer.new
       {| block := [x01; x02; x03; x04; x05]; offset := 0 |} 5)
  = Return [[x01; x02]; [x03; x04; x05]]
      {| NtIoInputBuffer.size := 0;
         NtIoInputBuffer.buffer :=
           {| block := [x01; x02; x03; x04; x05]; offset := 5 |} |}.
Proof.
  exact (proj1
           (read_values_cut_the_region [[x00; x00]; [x00; x00; x00]]
              (NtIoInputBuffer.new
                 {| block := [x01; x02; x03; x04; x05]; offset := 0 |} 5)
              ltac:(vm_compute; repeat split; discriminate)
              ltac:(vm_compute; discriminate))).
Defined.

Lemma read_values_app (a b : list (list byte)) :
  forall (this this' : NtIoInputBuffer.t) (ra : list (list byte)),
    read_values a this = Return ra this' ->
    read_values (a ++ b) this =
    match read_values b this' with
    | Return rb s => Return (ra ++ rb) s
    | Raise x s => Raise x s
    | Terminate => Terminate
    | Undefined => Undefined
    | Blocked => Blocked
    end.
Proof.
  induction a as [|t a IH]; intros this this' ra Ha.
  - injection Ha as <- <-. simpl.
    destruct (read_values b this); reflexivity.
  - rewrite <- app_comm_cons, read_values_cons.
    rewrite read_values_cons in Ha.
    destruct (NtIoInputBuffer.read (len t) (this, t))
      as [[] [mid t']|x [mid t']| | |]; try discriminate.
    destruct (read_values a mid) as [ts s|x s| | |] eqn:Hrest;
      try discriminate.
    injection Ha as <- <-.
    rewrite (IH mid s ts Hrest).
    destruct (read_values b s); reflexivity.
Qed.

(** X6. Typed reads are not rolled back: when the objects of [fit] are
    served and the next object is larger than what remains, the sequence
    raises StreamClosed and the buffer stays advanced past the bytes of
    [fit]. *)
Theorem read_values_no_rollback :
  forall (fit : list (list byte)) (t : list byte) (rest : list (list byte))
         (this : NtIoInputBuffer.t),
    NtIoInputBuffer.valid this ->
    total_len fit <= NtIoInputBuffer.size this ->
    NtIoInputBuffer.size this < total_len fit + len t ->
    read_values (fit ++ t :: rest) this
    = Raise (NtIo {| ioErrorCode := eioStreamClosed |})
        {| NtIoInputBuffer.size := NtIoInputBuffer.size this - total_len fit;
           NtIoInputBuffer.buffer :=
             advance (NtIoInputBuffer.buffer this) (total_len fit) |}.
Proof.
  intros fit t rest this Hvalid Hfit Hbig.
  rewrite (read_values_app fit (t :: rest) this _ _
             (read_values_served fit this Hvalid Hfit)).
  rewrite read_values_cons, read_closed by (simpl; lia).
  reflexivity.
Qed.

(** X6 on the region 1, 2, 3, 4, 5: an object of 2 bytes, then one of 4. *)
Lemma read_values_no_rollback_witness :
  read_values [[x00; x00]; [x00; x00; x00; x00]]
    (NtIoInputBuffer.new
       {| block := [x01; x02; x03; x04; x05]; offset := 0 |} 5)
  = Raise (NtIo {| ioErrorCode := eioStreamClosed |})
      {| NtIoInputBuffer.size := 3;
         NtIoInputBuffer.buffer :=
           {| block := [x01; x02; x03; x04; x05]; offset := 2 |} |}.
Proof.
  exact (read_values_no_rollback [[x00; x00]] [x00; x00; x00; x00] []
           (NtIoInputBuffer.new
              {| block := [x01; x02; x03; x04; x05]; offset := 0 |} 5)
           ltac:(vm_compute; repeat split; discriminate)
           ltac:(vm_compute; discriminate)
           ltac:(vm_compute; reflexivity)).
Defined.

(** ** Objects written and read back *)

Lemma write_values_is_write_all heap (objs : list (list byte)) :
  write_values heap objs = NtIoOutputBuffer.write_all heap objs.
Proof.
  induction objs as [|t rest IH]; [reflexivity|].
  simpl. rewrite IH. reflexivity.
Qed.

(** X7. Objects written through the typed [write] to an output buffer and
    read through the typed [read] from an input buffer over [data()] and
    [size()], into objects of the same sizes in the same order, come back
    byte for byte, and the input buffer is then exhausted. *)
Theorem typed_values_round_trip :
  forall heap (stepping : Z) (vals objs : list (list byte))
         (final : NtIoOutputBuffer.t),
    write_values heap vals (NtIoOutputBuffer.new stepping) = Return tt final ->
    map len objs = map len vals ->
    read_values objs
      (NtIoInputBuffer.new (NtIoOutputBuffer.data final)
         (NtIoOutputBuffer.size final))
    = Return vals
        {| NtIoInputBuffer.size := 0;
           NtIoInputBuffer.buffer :=
             advance (NtIoOutputBuffer.data final)
               (NtIoOutputBuffer.size final) |}.
Proof.
  intros heap stepping vals objs final Hw Hlen.
  rewrite write_values_is_write_all in Hw.
  assert (vector_valid (NtIoOutputBuffer.buffer (NtIoOutputBuffer.new stepping)))
    as Hnew by (unfold vector_valid, max_size; simpl; unfold len; simpl; lia).
  destruct (write_all_content heap vals _ final Hnew Hw) as [He Hv].
  simpl in He.
  assert (NtIoOutputBuffer.size final = total_len vals) as Hsize
      by (unfold NtIoOutputBuffer.size, vector_size, total_len;
          rewrite He; reflexivity).
  pose proof (same_lengths_total objs vals Hlen) as Htot.
  pose proof (total_len_nonneg vals) as Hpos.
  unfold vector_valid in Hv. rewrite He in Hv. fold (total_len vals) in Hv.
  assert (max_size = 9223372036854775807) as Hmax by reflexivity.
  assert (SIZE_MAX = 18446744073709551615) as Hsmax by reflexivity.
  rewrite read_values_served.
  - simpl. rewrite Htot, Hsize, Z.sub_diag.
    change (readable (NtIoOutputBuffer.data final))
      with (elems (NtIoOutputBuffer.buffer final)).
    rewrite He, pieces_of_concat by exact Hlen. reflexivity.
  - unfold NtIoInputBuffer.valid. simpl. rewrite He, Hsize.
    fold (total_len vals). lia.
  - simpl. lia.
Qed.

(** X7 on a two-byte object and a one-byte object. *)
Lemma typed_values_round_trip_witness :
  let final :=
    {| NtIoOutputBuffer.buffer :=
         {| elems := [x01; x02; x03]; capacity := 64 |};
       NtIoOutputBuffer.memoryStepping := 5 |} in
  read_values [[x00; x00]; [x00]]
    (NtIoInputBuffer.new (NtIoOutputBuffer.data final)
       (NtIoOutputBuffer.size final))
  = Return [[x01; x02]; [x03]]
      {| NtIoInputBuffer.size := 0;
         NtIoInputBuffer.buffer :=
           advance (NtIoOutputBuffer.data final)
             (NtIoOutputBuffer.size final) |}.
Proof.
  exact (typed_values_round_trip (fun _ => true) 5 [[x01; x02]; [x03]]
           [[x00; x00]; [x00]]
           {| NtIoOutputBuffer.buffer :=
                {| elems := [x01; x02; x03]; capacity := 64 |};
              NtIoOutputBuffer.memoryStepping := 5 |}
           eq_refl eq_refl).
Defined.

(** ** The capacity an output buffer holds *)

Lemma least_multiple_unique (step n a b : Z) :
  least_multiple_at_least step n a ->
  least_multiple_at_least step n b ->
  a = b.
Proof.
  intros (Hda & Hna & Hla) (Hdb & Hnb & Hlb).
  pose proof (Hla b Hdb Hnb). pose proof (Hlb a Hda Hna). lia.
Qed.

Lemma write_keeps_capacity_exact heap (rb : list byte) (n stepping : Z)
      (this this' : NtIoOutputBuffer.t) :
  0 <= stepping <= 29 ->
  0 <= n ->
  buffer_invariant stepping this ->
  capacity (NtIoOutputBuffer.buffer this)
  = NtIoOutputBuffer.round_up (NtIoOutputBuffer.size this)
      (2 ^ (stepping + 1) - 1) ->
  NtIoOutputBuffer.write heap rb n this = Return tt this' ->
  capacity (NtIoOutputBuffer.buffer this')
  = NtIoOutputBuffer.round_up (NtIoOutputBuffer.size this')
      (2 ^ (stepping + 1) - 1).
Proof.
  intros Hst Hn (Hms & Hv & Hdiv) Hexact Hw.
  destruct (Z.eq_dec n 0) as [-> | Hn0].
  { rewrite write_zero in Hw. injection Hw as <-. exact Hexact. }
  apply write_return_inv in Hw; [|exact Hv|lia].
  cbv zeta in Hw. rewrite Hms in Hw.
  destruct (step_of_stepping _ Hst) as [Hk Hkr]. rewrite Hk in Hw.
  destruct (mask_value _ Hkr) as [_ Hpow].
  destruct Hw as (_ & Hsrc & Hfit & ->).
  assert (2 ^ 30 = 1073741824) as H30 by reflexivity.
  assert (max_size = 9223372036854775807) as Hmax by reflexivity.
  assert (SIZE_MAX = 18446744073709551615) as Hsmax by reflexivity.
  pose proof (len_nonneg (elems (NtIoOutputBuffer.buffer this))) as Hlen.
  unfold vector_valid in Hv.
  unfold with_buffer, NtIoOutputBuffer.size, vector_size in *. simpl.
  rewrite len_app, len_firstn by lia.
  replace (Z.min n (len rb)) with n by lia.
  set (old := len (elems (NtIoOutputBuffer.buffer this))) in *.
  set (target := NtIoOutputBuffer.round_up (old + n) _) in *.
  destruct (Z.ltb_spec (capacity (NtIoOutputBuffer.buffer this)) target)
    as [Hlt|Hge]; [reflexivity|].
  pose proof (round_up_is_least_multiple (stepping + 1) old
                ltac:(lia) ltac:(lia) ltac:(lia)) as (_ & _ & Hleast).
  pose proof (round_up_is_least_multiple (stepping + 1) (old + n)
                ltac:(lia) ltac:(lia) ltac:(lia)) as (Hdt & Hnt & _).
  fold target in Hdt, Hnt.
  rewrite <- Hexact in Hleast.
  specialize (Hleast target Hdt ltac:(lia)). lia.
Qed.

Lemma round_up_zero (k : Z) :
  0 <= k < INT_VALUE_BITS -> NtIoOutputBuffer.round_up 0 (2 ^ k - 1) = 0.
Proof.
  intros Hk. destruct (mask_value k Hk) as [_ Hpow].
  assert (2 ^ 30 = 1073741824) as H30 by reflexivity.
  assert (SIZE_MAX = 18446744073709551615) as Hsmax by reflexivity.
  rewrite round_up_no_wrap by lia.
  rewrite Z.mod_small by lia. lia.
Qed.

(** X8. In every state an output buffer constructed with a stepping from 0
    to 29 goes through, the capacity is exactly the content length rounded
    up by the expression of [write]: the least multiple of the step that
    holds the content, so less than one step of the storage is unused. *)
Theorem capacity_is_content_rounded_up :
  forall (stepping : Z) (this : NtIoOutputBuffer.t),
    0 <= stepping <= 29 ->
    NtIoOutputBuffer.reachable stepping this ->
    let step := 2 ^ (stepping + 1) in
    capacity (NtIoOutputBuffer.buffer this)
    = NtIoOutputBuffer.round_up (NtIoOutputBuffer.size this) (step - 1)
    /\ least_multiple_at_least step (NtIoOutputBuffer.size this)
         (capacity (NtIoOutputBuffer.buffer this))
    /\ capacity (NtIoOutputBuffer.buffer this) - NtIoOutputBuffer.size this
       < step.
Proof.
  intros stepping this Hst Hreach step.
  assert (capacity (NtIoOutputBuffer.buffer this)
          = NtIoOutputBuffer.round_up (NtIoOutputBuffer.size this) (step - 1))
    as Hexact.
  { induction Hreach as [ | heap this rb n this' Hprev IH Hn Hw
                          | heap this rb n x this' Hprev IH Hn Hw ].
    - destruct (step_of_stepping _ Hst) as [_ Hkr0].
      subst step. simpl. change (len []) with 0.
      rewrite round_up_zero by exact Hkr0. reflexivity.
    - eapply write_keeps_capacity_exact; try eassumption; try lia.
      apply reachable_invariant; assumption.
    - apply write_raise_inv in Hw as [_ ->]. exact IH. }
  destruct (reachable_invariant stepping this Hst Hreach) as (_ & Hv & _).
  destruct (step_of_stepping _ Hst) as [_ Hkr].
  destruct (mask_value _ Hkr) as [_ Hpow].
  assert (2 ^ 30 = 1073741824) as H30 by reflexivity.
  assert (max_size = 9223372036854775807) as Hmax by reflexivity.
  assert (SIZE_MAX = 18446744073709551615) as Hsmax by reflexivity.
  unfold vector_valid in Hv.
  pose proof (len_nonneg (elems (NtIoOutputBuffer.buffer this))) as Hlen.
  unfold NtIoOutputBuffer.size, vector_size in *.
  split; [exact Hexact|]. rewrite Hexact. subst step. split.
  - apply round_up_is_least_multiple; lia.
  - pose proof (round_up_bounds (stepping + 1)
                  (len (elems (NtIoOutputBuffer.buffer this)))
                  ltac:(lia) ltac:(lia) ltac:(lia)). lia.
Qed.

(** X8 on the buffer of the default stepping after one write of 130 bytes:
    192 - 130 is less than 64. *)
Lemma capacity_is_content_rounded_up_witness : 192 - 130 < 64.
Proof.
  exact (proj2 (proj2
           (capacity_is_content_rounded_up 5 _
              ltac:(lia) reachable_after_130_bytes))).
Defined.

(** ** What a write leaves in place *)

Lemma write_all_appends heap (chunks : list (list byte)) :
  forall this final : NtIoOutputBuffer.t,
    vector_valid (NtIoOutputBuffer.buffer this) ->
    NtIoOutputBuffer.write_all heap chunks this = Return tt final ->
    capacity (NtIoOutputBuffer.buffer this)
    <= capacity (NtIoOutputBuffer.buffer final)
    /\ NtIoOutputBuffer.memoryStepping final
       = NtIoOutputBuffer.memoryStepping this.
Proof.
  induction chunks as [|c rest IH]; intros this final Hv Hw.
  - injection Hw as <-. split; [lia|reflexivity].
  - rewrite write_all_cons in Hw.
    destruct (NtIoOutputBuffer.write heap c (len c) this)
      as [[] mid|x mid| | |] eqn:Hc; try discriminate.
    destruct (Z.eq_dec (len c) 0) as [Hz|Hnz].
    + rewrite Hz, write_zero in Hc. injection Hc as <-.
      apply IH; assumption.
    + pose proof (len_nonneg c) as Hpos.
      apply write_return_inv in Hc; [|exact Hv|lia].
      cbv zeta in Hc. destruct Hc as (_ & _ & Hfit & ->).
      rewrite firstn_len in *.
      set (target := NtIoOutputBuffer.round_up _ _) in *.
      apply IH in Hw.
      * unfold with_buffer in Hw. simpl in Hw. destruct Hw as [Hcap Hms].
        split; [|exact Hms].
        destruct (Z.ltb_spec (capacity (NtIoOutputBuffer.buffer this)) target);
          lia.
      * unfold with_buffer, vector_valid in *. simpl.
        unfold NtIoOutputBuffer.size, vector_size in Hfit.
        rewrite len_app.
        destruct (Z.ltb_spec (capacity (NtIoOutputBuffer.buffer this)) target);
          lia.
Qed.

(** X9. Writes only append. From any buffer whose vector is valid, whatever
    its stepping and content, successive writes that all return leave the
    old content in place followed by the chunks in order, never a smaller
    capacity, the same [memoryStepping] and a valid vector. *)
Theorem writes_only_append :
  forall heap (chunks : list (list byte)) (this final : NtIoOutputBuffer.t),
    vector_valid (NtIoOutputBuffer.buffer this) ->
    NtIoOutputBuffer.write_all heap chunks this = Return tt final ->
    elems (NtIoOutputBuffer.buffer final)
    = elems (NtIoOutputBuffer.buffer this) ++ concat chunks
    /\ NtIoOutputBuffer.size final
       = NtIoOutputBuffer.size this + total_len chunks
    /\ capacity (NtIoOutputBuffer.buffer this)
       <= capacity (NtIoOutputBuffer.buffer final)
    /\ NtIoOutputBuffer.memoryStepping final
       = NtIoOutputBuffer.memoryStepping this
    /\ vector_valid (NtIoOutputBuffer.buffer final).
Proof.
  intros heap chunks this final Hv Hw.
  destruct (write_all_content heap chunks this final Hv Hw) as [He Hvf].
  destruct (write_all_appends heap chunks this final Hv Hw) as [Hcap Hms].
  repeat split; try assumption.
  - unfold NtIoOutputBuffer.size, vector_size, total_len.
    rewrite He. apply len_app.
  - apply Hvf.
  - apply Hvf.
Qed.

(** X9 on a buffer that holds one byte and receives two chunks. *)
Lemma writes_only_append_witness :
  let this :=
    {| NtIoOutputBuffer.buffer := {| elems := [x01]; capacity := 64 |};
       NtIoOutputBuffer.memoryStepping := 5 |} in
  let final :=
    {| NtIoOutputBuffer.buffer :=
         {| elems := [x01; x02; x03; x04]; capacity := 64 |};
       NtIoOutputBuffer.memoryStepping := 5 |} in
  elems (NtIoOutputBuffer.buffer final)
  = elems (NtIoOutputBuffer.buffer this) ++ concat [[x02]; [x03; x04]].
Proof.
  exact (proj1
           (writes_only_append (fun _ => false) [[x02]; [x03; x04]]
              {| NtIoOutputBuffer.buffer :=
                   {| elems := [x01]; capacity := 64 |};
                 NtIoOutputBuffer.memoryStepping := 5 |}
              {| NtIoOutputBuffer.buffer :=
                   {| elems := [x01; x02; x03; x04]; capacity := 64 |};
                 NtIoOutputBuffer.memoryStepping := 5 |}
              ltac:(vm_compute; split; discriminate)
              eq_refl)).
Defined.

(** ** How a write can fail *)

Lemma vector_reserve_not_blocked heap (n : Z) (v : vector) :
  vector_reserve heap n v <> Blocked.
Proof.
  unfold vector_reserve.
  destruct (max_size <? n); [discriminate|].
  destruct (capacity v <? n); [|discriminate].
  destruct (heap n); discriminate.
Qed.

Lemma vector_resize_not_blocked heap (n : Z) (v : vector) :
  vector_resize heap n v <> Blocked.
Proof.
  unfold vector_resize.
  destruct (n <=? vector_size v); [discriminate|].
  destruct (n <=? capacity v); [discriminate|].
  destruct (max_size <? n); [discriminate|].
  destruct (heap _); discriminate.
Qed.

Lemma write_not_blocked heap (rb : list byte) (n : Z)
      (this : NtIoOutputBuffer.t) :
  NtIoOutputBuffer.write heap rb n this <> Blocked.
Proof.
  rewrite write_unfold.
  destruct (n =? 0); [discriminate|]. cbv zeta.
  destruct (_ <? INT_VALUE_BITS); [|discriminate].
  assert (forall v,
             match vector_resize heap
                     (to_size_t (NtIoOutputBuffer.size this + n)) v with
             | Return _ v' =>
                 match memcpy (elems v') (NtIoOutputBuffer.size this) rb n with
                 | Some e =>
                     Return tt
                       (with_buffer this
                          {| elems := e; capacity := capacity v' |})
                 | None => Undefined
                 end
             | Raise x v' => leaving x (with_buffer this v')
             | Terminate => Terminate
             | Undefined => Undefined
             | Blocked => Blocked
             end <> (Blocked : outcome NtIoOutputBuffer.t unit)) as Hresize.
  { intros v.
    pose proof (vector_resize_not_blocked heap
                  (to_size_t (NtIoOutputBuffer.size this + n)) v) as Hnb.
    destruct (vector_resize _ _ _) as [[] v'|x v'| | |];
      try discriminate; [| |contradiction].
    - destruct (memcpy _ _ _ _); discriminate.
    - destruct x; discriminate. }
  destruct (capacity (NtIoOutputBuffer.buffer this) <? _).
  - pose proof (vector_reserve_not_blocked heap
                  (NtIoOutputBuffer.round_up
                     (to_size_t (NtIoOutputBuffer.size this + n))
                     (to_size_t
                        (to_size_t
                           (Z.shiftl 1
                              (to_size_t
                                 (NtIoOutputBuffer.memoryStepping this + 1)))
                         - 1)))
                  (NtIoOutputBuffer.buffer this)) as Hnb.
    destruct (vector_reserve _ _ _) as [[] v|x v| | |];
      try discriminate; [apply Hresize|contradiction].
  - apply Hresize.
Qed.

(** X10. AllocationFailure is the only exception a write of the output
    buffer raises, and whenever it raises the object is exactly as before the
    call; a write never waits. This holds for every stepping, request and
    state. *)
Theorem write_raises_only_allocation_failure :
  forall heap (requestBuffer : list byte) (requestSize : Z)
         (this : NtIoOutputBuffer.t),
    (forall x this',
        NtIoOutputBuffer.write heap requestBuffer requestSize this
        = Raise x this' ->
        x = NtIo {| ioErrorCode := eioAllocation |} /\ this' = this)
    /\ NtIoOutputBuffer.write heap requestBuffer requestSize this <> Blocked.
Proof.
  intros heap rb n this. split.
  - intros x this' Hw. exact (write_raise_inv heap rb n this this' x Hw).
  - apply write_not_blocked.
Qed.

(** X10 on a fresh buffer whose allocator refuses: the exception of the
    write and the object it leaves. *)
Lemma write_raises_only_allocation_failure_witness :
  NtIo {| ioErrorCode := eioAllocation |}
  = NtIo {| ioErrorCode := eioAllocation |}
  /\ NtIoOutputBuffer.new 5 = NtIoOutputBuffer.new 5.
Proof.
  exact (proj1
           (write_raises_only_allocation_failure (fun _ => false) [x01] 1
              (NtIoOutputBuffer.new 5))
           (NtIo {| ioErrorCode := eioAllocation |}) (NtIoOutputBuffer.new 5)
           eq_refl).
Defined.

(** ** A request whose rounding wraps around *)

Lemma round_up_wrapped_is_zero (k newSize : Z) :
  0 <= k < SIZE_BITS -> newSize <= SIZE_MAX ->
  SIZE_MAX - (2 ^ k - 1) < newSize ->
  NtIoOutputBuffer.round_up newSize (2 ^ k - 1) = 0.
Proof.
  intros Hk Hn Hwrap.
  assert (0 < 2 ^ k) as Hpos by (apply Z.pow_pos_nonneg; lia).
  unfold NtIoOutputBuffer.round_up.
  rewrite or_xor_mask by lia.
  assert (2 ^ k < 2 ^ SIZE_BITS) as Hlt by (apply Z.pow_lt_mono_r; lia).
  assert (to_size_t (newSize + (2 ^ k - 1))
          = newSize + (2 ^ k - 1) - 2 ^ SIZE_BITS) as Hw.
  { unfold to_size_t. symmetry.
    apply Z.mod_unique with (q := 1); unfold SIZE_MAX in *; [|lia].
    left. lia. }
  rewrite Hw. unfold SIZE_MAX in *.
  rewrite Z.mod_small by lia. lia.
Qed.

(** With a wrapped rounding the target is 0, [reserve] is skipped and the
    [resize] throws outside the handlers. *)
Lemma write_wrapped heap (this : NtIoOutputBuffer.t) (requestBuffer : list byte)
      (requestSize : Z) :
    let step := 2 ^ (NtIoOutputBuffer.memoryStepping this + 1) in
    let newSize := NtIoOutputBuffer.size this + requestSize in
    vector_valid (NtIoOutputBuffer.buffer this) ->
    0 <= NtIoOutputBuffer.memoryStepping this <= 29 ->
    0 < requestSize ->
    SIZE_MAX - (step - 1) < newSize <= SIZE_MAX ->
    NtIoOutputBuffer.round_up newSize (step - 1) = 0
    /\ vector_resize heap newSize (NtIoOutputBuffer.buffer this)
       = Raise std_length_error (NtIoOutputBuffer.buffer this)
    /\ NtIoOutputBuffer.write heap requestBuffer requestSize this = Terminate.
Proof.
  revert requestBuffer requestSize.
  intros rb n step newSize Hv Hms Hn Hwrap.
  destruct (step_of_stepping _ Hms) as [Hk Hkr].
  destruct (mask_value _ Hkr) as [Hmask Hpow].
  assert (2 ^ 30 = 1073741824) as H30 by reflexivity.
  assert (max_size = 9223372036854775807) as Hmax by reflexivity.
  assert (SIZE_MAX = 18446744073709551615) as Hsmax by reflexivity.
  pose proof (len_nonneg (elems (NtIoOutputBuffer.buffer this))) as Hlen.
  unfold vector_valid in Hv.
  assert (NtIoOutputBuffer.round_up newSize (step - 1) = 0) as Hzero.
  { apply round_up_wrapped_is_zero;
      [unfold SIZE_BITS, INT_VALUE_BITS in *; lia | lia | subst step; lia]. }
  assert (vector_resize heap newSize (NtIoOutputBuffer.buffer this)
          = Raise std_length_error (NtIoOutputBuffer.buffer this)) as Hresize.
  { unfold vector_resize, vector_size.
    subst newSize step. unfold NtIoOutputBuffer.size, vector_size in *.
    destruct (Z.leb_spec
                (len (elems (NtIoOutputBuffer.buffer this)) + n)
                (len (elems (NtIoOutputBuffer.buffer this)))); [lia|].
    destruct (Z.leb_spec
                (len (elems (NtIoOutputBuffer.buffer this)) + n)
                (capacity (NtIoOutputBuffer.buffer this))); [lia|].
    destruct (Z.ltb_spec max_size
                (len (elems (NtIoOutputBuffer.buffer this)) + n));
      [reflexivity|lia]. }
  split; [exact Hzero|split; [exact Hresize|]].
  rewrite write_unfold.
  destruct (Z.eqb_spec n 0); [lia|]. cbv zeta.
  rewrite Hk, Hmask.
  destruct (Z.ltb_spec (NtIoOutputBuffer.memoryStepping this + 1)
              INT_VALUE_BITS); [|lia].
  fold step newSize. rewrite (to_size_t_small newSize) by lia.
  rewrite Hzero.
  destruct (Z.ltb_spec (capacity (NtIoOutputBuffer.buffer this)) 0); [lia|].
  rewrite Hresize. reflexivity.
Qed.

(** X11. A write on a valid vector, with a stepping from 0 to 29 and a new
    length that is a [size_t] value, never copies outside the vector or the
    source, provided the source holds the requested bytes whenever the
    rounding does not wrap: its behaviour is defined. It ends in
    [std::terminate] exactly when the request is not empty and adding the
    mask to the new length wraps around: the target is then 0, [reserve] is
    not called, the source is not read, and the [resize] above the length
    limit throws [std::length_error] outside the handlers, against the
    exception specification, where a failed [reserve] would have raised
    AllocationFailure. *)
Theorem write_stays_in_bounds_or_terminates :
  forall heap (this : NtIoOutputBuffer.t) (requestBuffer : list byte)
         (requestSize : Z),
    let step := 2 ^ (NtIoOutputBuffer.memoryStepping this + 1) in
    let newSize := NtIoOutputBuffer.size this + requestSize in
    vector_valid (NtIoOutputBuffer.buffer this) ->
    0 <= NtIoOutputBuffer.memoryStepping this <= 29 ->
    0 <= requestSize ->
    newSize <= SIZE_MAX ->
    (newSize <= SIZE_MAX - (step - 1) -> requestSize <= len requestBuffer) ->
    NtIoOutputBuffer.write heap requestBuffer requestSize this <> Undefined
    /\ (NtIoOutputBuffer.write heap requestBuffer requestSize this = Terminate
        <-> 0 < requestSize /\ SIZE_MAX - (step - 1) < newSize)
    /\ (0 < requestSize -> SIZE_MAX - (step - 1) < newSize ->
        NtIoOutputBuffer.round_up newSize (step - 1) = 0
        /\ vector_resize heap newSize (NtIoOutputBuffer.buffer this)
           = Raise std_length_error (NtIoOutputBuffer.buffer this)).
Proof.
  intros heap this rb n step newSize Hv Hms Hn Hsize Hsrc.
  assert (0 < n -> SIZE_MAX - (step - 1) < newSize ->
          NtIoOutputBuffer.round_up newSize (step - 1) = 0
          /\ vector_resize heap newSize (NtIoOutputBuffer.buffer this)
             = Raise std_length_error (NtIoOutputBuffer.buffer this)
          /\ NtIoOutputBuffer.write heap rb n this = Terminate) as Hwrapped.
  { intros Hpos Hwrap. apply write_wrapped; try assumption.
    fold step newSize. lia. }
  assert (n <> 0 -> newSize <= SIZE_MAX - (step - 1) ->
          NtIoOutputBuffer.write heap rb n this <> Undefined
          /\ NtIoOutputBuffer.write heap rb n this <> Terminate) as Hnormal.
  { intros Hn0 Hfit. specialize (Hsrc Hfit).
    destruct (step_of_stepping _ Hms) as [Hk Hkr].
    pose proof (write_equation heap rb n this) as Heq. cbv zeta in Heq.
    rewrite Hk in Heq. rewrite Heq by (try assumption; lia).
    set (target := NtIoOutputBuffer.round_up _ _).
    destruct (capacity (NtIoOutputBuffer.buffer this) <? target);
      [destruct ((target <=? max_size) && heap target)|];
      split; discriminate. }
  destruct (Z.eq_dec n 0) as [-> | Hn0].
  { rewrite write_zero. split; [discriminate|].
    split; [split; [discriminate|lia]|lia]. }
  destruct (Z.le_gt_cases newSize (SIZE_MAX - (step - 1))) as [Hfit|Hwrap].
  - destruct (Hnormal Hn0 Hfit) as [Hdef Hrun].
    split; [exact Hdef|]. split; [split; [contradiction|lia]|lia].
  - destruct (Hwrapped ltac:(lia) ltac:(lia)) as (Hz & Hr & Hterm).
    rewrite Hterm. split; [discriminate|].
    split; [split; [lia|reflexivity]|auto].
Qed.

(** X11 on a fresh buffer of the default stepping: a request of SIZE_MAX
    bytes ends in [std::terminate]. *)
Lemma write_stays_in_bounds_or_terminates_witness :
  NtIoOutputBuffer.write (fun _ => true) [] SIZE_MAX (NtIoOutputBuffer.new 5)
  = Terminate.
Proof.
  refine (proj2 (proj1 (proj2
            (write_stays_in_bounds_or_terminates (fun _ => true)
               (NtIoOutputBuffer.new 5) [] SIZE_MAX
               ltac:(vm_compute; split; discriminate)
               ltac:(vm_compute; split; discriminate)
               ltac:(vm_compute; discriminate)
               ltac:(vm_compute; discriminate)
               _))) _).
  - vm_compute. intros H. exfalso. apply H. reflexivity.
  - vm_compute. split; reflexivity.
Defined.

(** ** Growth that fails outside the handlers *)

(** C8. The code does not keep the claim. On a fresh buffer of the default
    stepping, a request of SIZE_MAX - 63 bytes exceeds the length limit in
    the guarded [reserve] and the write raises AllocationFailure with the
    buffer unchanged, as the claim says. One byte more, and up to SIZE_MAX,
    the rounding wraps to a target of 0, [reserve] is skipped, and the growth
    fails on the length limit in the [resize] that follows the handlers: the
    write raises nothing, AllocationFailure included, and ends in
    [std::terminate]. This holds whatever the allocator and the source. *)
Theorem write_length_limit_outside_handlers_terminates :
  forall heap (requestBuffer : list byte),
    let fresh := NtIoOutputBuffer.new NtIoOutputBuffer.default_memoryStepping in
    NtIoOutputBuffer.write heap requestBuffer (SIZE_MAX - 63) fresh
    = Raise (NtIo {| ioErrorCode := eioAllocation |}) fresh
    /\ NtIoOutputBuffer.write heap requestBuffer (SIZE_MAX - 62) fresh
       = Terminate
    /\ NtIoOutputBuffer.write heap requestBuffer SIZE_MAX fresh = Terminate
    /\ (forall x this',
           NtIoOutputBuffer.write heap requestBuffer SIZE_MAX fresh
           <> Raise x this')
    /\ NtIoOutputBuffer.round_up (NtIoOutputBuffer.size fresh + SIZE_MAX)
         (2 ^ (NtIoOutputBuffer.memoryStepping fresh + 1) - 1) = 0
    /\ vector_resize heap (NtIoOutputBuffer.size fresh + SIZE_MAX)
         (NtIoOutputBuffer.buffer fresh)
       = Raise std_length_error (NtIoOutputBuffer.buffer fresh).
Proof.
  intros heap rb fresh.
  assert (NtIoOutputBuffer.write heap rb SIZE_MAX fresh = Terminate) as Hterm
      by (vm_compute; reflexivity).
  split; [vm_compute; reflexivity|].
  split; [vm_compute; reflexivity|].
  split; [exact Hterm|].
  split; [intros x this' Hraise; rewrite Hterm in Hraise; discriminate Hraise|].
  split; vm_compute; reflexivity.
Qed.
